(** * An in-memory book catalogue served over HTTP (main.go)

  The server keeps one global map [books] from identifier to [Book],
  guarded by one global [sync.RWMutex] called [mux].  Two routes are
  registered in [main], both wrapped by [authenticate]:
  "/books" (handler [handleBooks]) and "/book/" (handler [handleBook]).

  Handlers are embedded as programs over the atomic actions they perform
  on the shared state (lock operations, map accesses) and on their own
  response writer.  One interpreter runs a program to completion (a single
  request served alone); a thread-pool step relation interleaves the
  actions of several requests served at the same time. *)

From stdpp Require Import gmap strings list fin_maps.
From Stdlib Require Import ZArith Ascii.

Open Scope string_scope.
Open Scope Z_scope.

(** ** The data model *)

(** [type Book struct { ID string; Title string }] *)
Record Book := mkBook { ID : string; Title : string }.

(** The zero value of [Book], what [var book Book] declares. *)
Definition zeroBook : Book := mkBook EmptyString EmptyString.

(** ** Pieces of the Go language and runtime the handlers rely on *)

Module Go.

(** A slice of books: [nil], or a (possibly empty) run of elements.  The
    capacity is not observable by the handlers and is left out. *)
Inductive slice := nil_slice | mk_slice (elems : list Book).

(** [make([]Book, len, cap)] *)
Definition make (len cap : nat) : slice := mk_slice (replicate len zeroBook).

(** [append(s, b)]: appending to [nil] allocates. *)
Definition append (s : slice) (b : Book) : slice :=
  match s with
  | nil_slice => mk_slice [b]
  | mk_slice l => mk_slice (l ++ [b])
  end.

(** [s[n:]] on a string: the bytes from offset [n] on; out of range when
    [n] exceeds the length, which panics at run time ([None] here). *)
Fixpoint str_from (n : nat) (s : string) : option string :=
  match n, s with
  | O, _ => Some s
  | S _, EmptyString => None
  | S n', String _ s' => str_from n' s'
  end.

(** [sync.RWMutex]: held by one writer, or by a number of readers. *)
Record RWMutex := mkRWMutex { writer : bool; readers : nat }.

Definition unlocked : RWMutex := mkRWMutex false 0.

(** [Lock] proceeds only when nobody holds the mutex ([None]: the caller
    has to wait). *)
Definition Lock (m : RWMutex) : option RWMutex :=
  if writer m then None
  else match readers m with
       | O => Some (mkRWMutex true 0)
       | S _ => None
       end.

(** [RLock] proceeds unless a writer holds the mutex.  (The runtime also
    makes new readers wait behind a writer that is waiting; that only
    removes interleavings.) *)
Definition RLock (m : RWMutex) : option RWMutex :=
  if writer m then None else Some (mkRWMutex false (S (readers m))).

(** [Unlock] of a mutex that is not write-locked is a fatal error
    ([None]). *)
Definition Unlock (m : RWMutex) : option RWMutex :=
  if writer m then Some (mkRWMutex false (readers m)) else None.

(** [RUnlock] of a mutex without readers is a fatal error ([None]). *)
Definition RUnlock (m : RWMutex) : option RWMutex :=
  match readers m with
  | O => None
  | S n => Some (mkRWMutex (writer m) n)
  end.

End Go.

(** ** net/http: status codes, requests, the response writer *)

Module http.

Definition StatusOK : Z := 200.
Definition StatusCreated : Z := 201.
Definition StatusNoContent : Z := 204.
Definition StatusNotModified : Z := 304.
Definition StatusBadRequest : Z := 400.
Definition StatusUnauthorized : Z := 401.
Definition StatusNotFound : Z := 404.
Definition StatusMethodNotAllowed : Z := 405.

(** Header field names are kept in canonical form: the first letter and
    every letter after a hyphen in upper case, the others in lower case.
    A name holding a byte that is not a token character is left alone. *)
Definition is_lower (c : ascii) : bool :=
  (97 <=? nat_of_ascii c)%nat && (nat_of_ascii c <=? 122)%nat.
Definition is_upper (c : ascii) : bool :=
  (65 <=? nat_of_ascii c)%nat && (nat_of_ascii c <=? 90)%nat.
Definition is_digit (c : ascii) : bool :=
  (48 <=? nat_of_ascii c)%nat && (nat_of_ascii c <=? 57)%nat.
Definition to_upper (c : ascii) : ascii :=
  if is_lower c then ascii_of_nat (nat_of_ascii c - 32) else c.
Definition to_lower (c : ascii) : ascii :=
  if is_upper c then ascii_of_nat (nat_of_ascii c + 32) else c.

Definition token_punct : list nat :=
  [33; 35; 36; 37; 38; 39; 42; 43; 45; 46; 94; 95; 96; 124; 126]%nat.

Definition validHeaderFieldByte (c : ascii) : bool :=
  is_lower c || is_upper c || is_digit c
  || existsb (Nat.eqb (nat_of_ascii c)) token_punct.

Fixpoint all_bytes (f : ascii → bool) (s : string) : bool :=
  match s with
  | EmptyString => true
  | String c s' => f c && all_bytes f s'
  end.

Fixpoint canon (upper : bool) (s : string) : string :=
  match s with
  | EmptyString => EmptyString
  | String c s' =>
      let c' := if upper then to_upper c else to_lower c in
      String c' (canon (Ascii.eqb c' "-"%char) s')
  end.

Definition CanonicalMIMEHeaderKey (s : string) : string :=
  if all_bytes validHeaderFieldByte s then canon true s else s.

(** [http.Header]: canonical field name to the values received. *)
Abbreviation Header := (gmap string (list string)).

(** [h.Get(key)]: the first value stored under the canonical form of
    [key], the empty string when there is none. *)
Definition Get (h : Header) (key : string) : string :=
  match h !! CanonicalMIMEHeaderKey key with
  | Some (v :: _) => v
  | _ => EmptyString
  end.

(** The parts of [*http.Request] the handlers read; [Path] is
    [r.URL.Path] and [Body] the bytes of the request body. *)
Record Request := mkRequest {
  Method : string;
  Path : string;
  Hdr : Header;
  Body : string
}.

(** The handler's view of the response under construction: the status
    line once it has been written, and the body bytes written so far. *)
Record ResponseWriter := mkWriter {
  wroteHeader : option Z;
  written : string
}.

Definition fresh : ResponseWriter := mkWriter None EmptyString.

(** [w.WriteHeader(code)]: only the first call counts. *)
Definition WriteHeader (code : Z) (w : ResponseWriter) : ResponseWriter :=
  match wroteHeader w with
  | Some _ => w
  | None => mkWriter (Some code) (written w)
  end.

Definition bodyAllowedForStatus (status : Z) : bool :=
  if (100 <=? status) && (status <=? 199) then false
  else if status =? StatusNoContent then false
  else if status =? StatusNotModified then false
  else true.

(** [w.Write(p)]: writes the status line with 200 first when it has not
    been written yet; a status without body drops the bytes. *)
Definition Write (p : string) (w : ResponseWriter) : ResponseWriter :=
  let w1 := WriteHeader StatusOK w in
  match wroteHeader w1 with
  | Some code =>
      if bodyAllowedForStatus code
      then mkWriter (wroteHeader w1) (written w1 ++ p)
      else w1
  | None => w1
  end.

(** What the client receives once the handler has returned. *)
Record Response := mkResponse { StatusCode : Z; Payload : string }.

Definition finish (w : ResponseWriter) : Response :=
  let w1 := WriteHeader StatusOK w in
  mkResponse (default StatusOK (wroteHeader w1)) (written w1).

End http.

Import http.

Definition newline : string := String (ascii_of_nat 10) EmptyString.
Definition dquote : string := String (ascii_of_nat 34) EmptyString.

(** ** What the platform decides

    Three things are decided by the Go libraries and runtime rather than by
    main.go, and are taken as parameters: what
    [json.NewDecoder(r.Body).Decode(&book)] makes of a request body (a book,
    or an error with its text), how encoding/json writes a string literal,
    and the order in which one [range] loop visits the entries of a map
    (some enumeration of the entries, each exactly once). *)

Class Platform := {
  json_Decode : string → Book + string;
  json_quote : string → string;
  mapiter : gmap string Book → list (string * Book);
  mapiter_perm : ∀ m, mapiter m ≡ₚ map_to_list m
}.

(** ** encoding/json on the values the handlers encode *)

Module json.
Section Marshal.
Context `{Platform}.

Definition key (name : string) : string := dquote ++ name ++ dquote.

(** A [Book] is written as an object with the fields "id" and "title", in
    the order of the struct's declaration. *)
Definition Marshal_Book (b : Book) : string :=
  "{" ++ key "id" ++ ":" ++ json_quote (ID b) ++ ","
      ++ key "title" ++ ":" ++ json_quote (Title b) ++ "}".

Fixpoint join (sep : string) (l : list string) : string :=
  match l with
  | [] => EmptyString
  | [x] => x
  | x :: l' => x ++ sep ++ join sep l'
  end.

(** A nil slice is written as [null], any other slice as an array. *)
Definition Marshal_slice (s : Go.slice) : string :=
  match s with
  | Go.nil_slice => "null"
  | Go.mk_slice l => "[" ++ join "," (map Marshal_Book l) ++ "]"
  end.

End Marshal.
End json.

(** ** Programs over atomic actions *)

(** The state shared by all requests: the global map [books], the flags the
    runtime keeps on it (a write in progress, the number of [range] loops in
    progress), and the global mutex [mux]. *)
Record Shared := mkShared {
  books : gmap string Book;
  hashWriting : bool;
  iterating : nat;
  mux : Go.RWMutex
}.

(** The shared state between requests: nothing in progress, mutex free. *)
Definition at_rest (m : gmap string Book) : Shared :=
  mkShared m false 0 Go.unlocked.

(** The atomic actions.  A map assignment or deletion takes two steps (the
    runtime marks the map as being written, then updates it), and so does a
    [range] loop (it starts, then is over). *)
Inductive Eff : Type → Type :=
| mux_RLock : Eff unit
| mux_RUnlock : Eff unit
| mux_Lock : Eff unit
| mux_Unlock : Eff unit
| map_len : Eff nat
| map_access (k : string) : Eff (option Book)
| map_write_begin : Eff unit
| map_assign_commit (k : string) (v : Book) : Eff unit
| map_delete_commit (k : string) : Eff unit
| map_range_begin : Eff (list (string * Book))
| map_range_end : Eff unit
| w_WriteHeader (code : Z) : Eff unit
| w_Write (p : string) : Eff unit.

Inductive prog (A : Type) : Type :=
| Ret (a : A)
| Panic (msg : string)
| Vis {X : Type} (e : Eff X) (k : X → prog A).

Arguments Ret {A} a.
Arguments Panic {A} msg.
Arguments Vis {A X} e k.

Fixpoint prog_bind {A B} (f : A → prog B) (p : prog A) : prog B :=
  match p with
  | Ret a => f a
  | Panic msg => Panic msg
  | Vis e k => Vis e (λ x, prog_bind f (k x))
  end.

Global Instance prog_ret : MRet prog := λ A a, Ret a.
Global Instance prog_mbind : MBind prog := λ A B f p, prog_bind f p.

Definition trigger {X} (e : Eff X) : prog X := Vis e Ret.

(** What one action does to the shared state and to the writer of the
    request performing it: it completes with a result, has to wait, or is a
    fatal error of the runtime. *)
Inductive reply (X : Type) : Type :=
| Done (x : X) (σ : Shared) (w : ResponseWriter)
| Wait
| Fatal (msg : string).

Arguments Done {X} x σ w.
Arguments Wait {X}.
Arguments Fatal {X} msg.

Definition with_mux (σ : Shared) (m : Go.RWMutex) : Shared :=
  mkShared (books σ) (hashWriting σ) (iterating σ) m.

Section Semantics.
Context `{Platform}.

Definition exec {X} (e : Eff X) (σ : Shared) (w : ResponseWriter) : reply X :=
  match e in Eff X return reply X with
  | mux_RLock =>
      match Go.RLock (mux σ) with
      | Some m => Done tt (with_mux σ m) w
      | None => Wait
      end
  | mux_Lock =>
      match Go.Lock (mux σ) with
      | Some m => Done tt (with_mux σ m) w
      | None => Wait
      end
  | mux_RUnlock =>
      match Go.RUnlock (mux σ) with
      | Some m => Done tt (with_mux σ m) w
      | None => Fatal "sync: RUnlock of unlocked RWMutex"
      end
  | mux_Unlock =>
      match Go.Unlock (mux σ) with
      | Some m => Done tt (with_mux σ m) w
      | None => Fatal "sync: Unlock of unlocked RWMutex"
      end
  | map_len => Done (size (books σ)) σ w
  | map_access k =>
      if hashWriting σ then Fatal "concurrent map read and map write"
      else Done (books σ !! k) σ w
  | map_write_begin =>
      if hashWriting σ then Fatal "concurrent map writes"
      else match iterating σ with
           | O => Done tt (mkShared (books σ) true 0 (mux σ)) w
           | S _ => Fatal "concurrent map iteration and map write"
           end
  | map_assign_commit k v =>
      Done tt (mkShared (<[k:=v]> (books σ)) false (iterating σ) (mux σ)) w
  | map_delete_commit k =>
      Done tt (mkShared (delete k (books σ)) false (iterating σ) (mux σ)) w
  | map_range_begin =>
      if hashWriting σ then Fatal "concurrent map iteration and map write"
      else Done (mapiter (books σ))
                (mkShared (books σ) false (S (iterating σ)) (mux σ)) w
  | map_range_end =>
      Done tt (mkShared (books σ) (hashWriting σ) (pred (iterating σ)) (mux σ)) w
  | w_WriteHeader code => Done tt σ (WriteHeader code w)
  | w_Write p => Done tt σ (Write p w)
  end.

(** How a program run alone ends. *)
Inductive outcome (A : Type) : Type :=
| Returned (a : A) (σ : Shared) (w : ResponseWriter)
| Panicked (msg : string) (σ : Shared)
| Blocked (σ : Shared)
| Crashed (msg : string).

Fixpoint run {A} (p : prog A) (σ : Shared) (w : ResponseWriter) : outcome A :=
  match p with
  | Ret a => Returned A a σ w
  | Panic msg => Panicked A msg σ
  | Vis e k =>
      match exec e σ w with
      | Done x σ' w' => run (k x) σ' w'
      | Wait => Blocked A σ
      | Fatal msg => Crashed A msg
      end
  end.

End Semantics.

Arguments Returned {A} a σ w.
Arguments Panicked {A} msg σ.
Arguments Blocked {A} σ.
Arguments Crashed {A} msg.

(** ** Library calls made by the handlers, as programs *)

Abbreviation HandlerFunc := (Request → prog unit).

Section Handlers.
Context `{Platform}.

(** [http.Error(w, error, code)]: the status line, then the text and a
    line feed. *)
Definition Error (error : string) (code : Z) : prog unit :=
  trigger (w_WriteHeader code) ;;
  trigger (w_Write (error ++ newline)).

(** [http.NotFound(w, r)] *)
Definition NotFound : prog unit := Error "404 page not found" StatusNotFound.

(** [json.NewEncoder(w).Encode(v)]: the encoding of [v] and a line feed, in
    one write. *)
Definition Encode_Book (b : Book) : prog unit :=
  trigger (w_Write (json.Marshal_Book b ++ newline)).

Definition Encode_slice (s : Go.slice) : prog unit :=
  trigger (w_Write (json.Marshal_slice s ++ newline)).

(** [books[k] = v] *)
Definition books_assign (k : string) (v : Book) : prog unit :=
  trigger map_write_begin ;;
  trigger (map_assign_commit k v).

(** [delete(books, k)] *)
Definition books_delete (k : string) : prog unit :=
  trigger map_write_begin ;;
  trigger (map_delete_commit k).

(** [for _, book := range books { acc = body(acc, book) }] *)
Definition books_range {A} (body : A → Book → A) (acc : A) : prog A :=
  entries ← trigger map_range_begin;
  let acc' := foldl (λ a kv, body a kv.2) acc entries in
  trigger map_range_end ;;
  mret acc'.

(** ** main.go *)

Definition initializeBooks : prog unit :=
  books_assign "1" (mkBook "1" "1984") ;;
  books_assign "2" (mkBook "2" "Brave New World") ;;
  books_assign "3" (mkBook "3" "To Kill a Mockingbird") ;;
  books_assign "4" (mkBook "4" "The Great Gatsby") ;;
  books_assign "5" (mkBook "5" "Moby Dick").

Definition authenticate (next : HandlerFunc) : HandlerFunc := λ r,
  let apiKey := Get (Hdr r) "X-API-Key" in
  if decide (apiKey ≠ "secret-key")
  then Error "Unauthorized" StatusUnauthorized
  else next r.

Definition handleBooks : HandlerFunc := λ r,
  if decide (Method r = "GET") then
    trigger mux_RLock ;;
    n ← trigger map_len;
    bks ← books_range Go.append (Go.make 0 n);
    trigger mux_RUnlock ;;
    Encode_slice bks
  else if decide (Method r = "POST") then
    match json_Decode (Body r) with
    | inr err => Error err StatusBadRequest
    | inl book =>
        trigger mux_Lock ;;
        books_assign (ID book) book ;;
        trigger mux_Unlock ;;
        trigger (w_WriteHeader StatusCreated)
    end
  else
    trigger (w_WriteHeader StatusMethodNotAllowed).

Definition handleBook : HandlerFunc := λ r,
  match Go.str_from (String.length "/book/") (Path r) with
  | None => Panic "slice bounds out of range"
  | Some id =>
      if decide (Method r = "GET") then
        trigger mux_RLock ;;
        found ← trigger (map_access id);
        trigger mux_RUnlock ;;
        match found with
        | None => NotFound
        | Some book => Encode_Book book
        end
      else if decide (Method r = "PUT") then
        match json_Decode (Body r) with
        | inr err => Error err StatusBadRequest
        | inl book =>
            trigger mux_Lock ;;
            books_assign id book ;;
            trigger mux_Unlock ;;
            Encode_Book book
        end
      else if decide (Method r = "DELETE") then
        trigger mux_Lock ;;
        books_delete id ;;
        trigger mux_Unlock ;;
        trigger (w_WriteHeader StatusNoContent)
      else
        trigger (w_WriteHeader StatusMethodNotAllowed)
  end.

(** The routes [main] registers with [http.HandleFunc]. *)
Definition routes : list (string * HandlerFunc) :=
  [ ("/books", authenticate handleBooks);
    ("/book/", authenticate handleBook) ].

(** The map as [main] finds it before it starts listening:
    [make(map[string]Book)] after [initializeBooks()]. *)
Definition startup : outcome unit := run initializeBooks (at_rest ∅) fresh.

(** ** Serving one request on its own *)

Inductive served : Type :=
| Responded (resp : Response) (σ : Shared)
| Aborted (msg : string) (σ : Shared)
| Hung (σ : Shared)
| Died (msg : string).

(** The server hands the handler a fresh writer and sends what the writer
    holds when the handler returns.  A panic is recovered by the server,
    which drops the connection. *)
Definition serve (h : HandlerFunc) (r : Request) (σ : Shared) : served :=
  match run (h r) σ fresh with
  | Returned _ σ' w => Responded (finish w) σ'
  | Panicked msg σ' => Aborted msg σ'
  | Blocked σ' => Hung σ'
  | Crashed msg => Died msg
  end.

End Handlers.

(** ** A small platform to run the handlers on concrete requests

    The codec below reads and writes flat objects of string fields, with
    the escapes for the quote and the backslash only; maps are visited in
    the order of [map_to_list]. *)

Module Reference.

Definition is_space (c : ascii) : bool :=
  existsb (Nat.eqb (nat_of_ascii c)) [32; 9; 10; 13]%nat.

Fixpoint skip_ws (s : string) : string :=
  match s with
  | String c s' => if is_space c then skip_ws s' else s
  | EmptyString => s
  end.

Fixpoint escape (s : string) : string :=
  match s with
  | EmptyString => EmptyString
  | String c s' =>
      if Ascii.eqb c (ascii_of_nat 34) || Ascii.eqb c (ascii_of_nat 92)
      then String (ascii_of_nat 92) (String c (escape s'))
      else String c (escape s')
  end.

Definition quote (s : string) : string := dquote ++ escape s ++ dquote.

(** Reads a string literal whose opening quote has been consumed: the
    contents read so far are [acc]; gives the contents and what follows the
    closing quote. *)
Fixpoint read_literal (s acc : string) (escaped : bool) : option (string * string) :=
  match s with
  | EmptyString => None
  | String c s' =>
      if escaped then
        if Ascii.eqb c (ascii_of_nat 34) || Ascii.eqb c (ascii_of_nat 92)
        then read_literal s' (acc ++ String c EmptyString) false
        else None
      else if Ascii.eqb c (ascii_of_nat 92) then read_literal s' acc true
      else if Ascii.eqb c (ascii_of_nat 34) then Some (acc, s')
      else read_literal s' (acc ++ String c EmptyString) false
  end.

Definition expect (c : nat) (s : string) : option string :=
  match skip_ws s with
  | String d s' => if Nat.eqb (nat_of_ascii d) c then Some s' else None
  | EmptyString => None
  end.

Definition set_field (name value : string) (b : Book) : Book :=
  if String.eqb name "id" then mkBook value (Title b)
  else if String.eqb name "title" then mkBook (ID b) value
  else b.

Definition bad_syntax : string := "invalid character in JSON input".
Definition cut_short : string := "unexpected EOF".

(** The fields of an object, from its first key on. *)
Fixpoint read_fields (fuel : nat) (s : string) (b : Book) : Book + string :=
  match fuel with
  | O => inr cut_short
  | S fuel' =>
      match expect 34 s with
      | None => inr bad_syntax
      | Some s1 =>
          match read_literal s1 EmptyString false with
          | None => inr cut_short
          | Some (name, s2) =>
              match expect 58 s2 with
              | None => inr bad_syntax
              | Some s3 =>
                  match expect 34 s3 with
                  | None => inr bad_syntax
                  | Some s4 =>
                      match read_literal s4 EmptyString false with
                      | None => inr cut_short
                      | Some (value, s5) =>
                          let b' := set_field name value b in
                          match expect 44 s5 with
                          | Some s6 => read_fields fuel' s6 b'
                          | None =>
                              match expect 125 s5 with
                              | Some _ => inl b'
                              | None => inr bad_syntax
                              end
                          end
                      end
                  end
              end
          end
      end
  end.

Definition decode (s : string) : Book + string :=
  match skip_ws s with
  | EmptyString => inr "EOF"
  | _ =>
      match expect 123 s with
      | None => inr bad_syntax
      | Some s1 =>
          match expect 125 s1 with
          | Some _ => inl zeroBook
          | None => read_fields (String.length s1) s1 zeroBook
          end
      end
  end.

Definition platform : Platform := {|
  json_Decode := decode;
  json_quote := quote;
  mapiter := map_to_list;
  mapiter_perm := λ m, reflexivity (map_to_list m)
|}.

(** A request carrying the API key. *)
Definition request (method path body : string) : Request :=
  mkRequest method path {[ "X-Api-Key" := ["secret-key"] ]} body.

(** The same request without the key. *)
Definition anonymous (method path body : string) : Request :=
  mkRequest method path ∅ body.

Definition dune : Book := mkBook "6" "Dune".
Definition emma : Book := mkBook "7" "Emma".

Definition wire (b : Book) : string := json.Marshal_Book (H:=platform) b.

(** Two clients posting at the same time on an empty map. *)
Definition two_posts : list Request :=
  [ request "POST" "/books" (wire dune); request "POST" "/books" (wire emma) ].

End Reference.

(** ** Serving several requests at the same time

    The server runs every request in a goroutine of its own.  A pool holds
    the shared state and, per request, what is left of its handler and its
    writer; one step performs the next atomic action of one thread. *)

Record Thread := mkThread { code : prog unit; out : ResponseWriter }.

Record Pool := mkPool { shared : Shared; threads : list Thread }.

Inductive move : Type :=
| Moved (t : Thread) (σ : Shared)
| Waits
| Faults (msg : string)
| Panics (msg : string)
| Over.

Section Concurrent.
Context `{Platform}.

Definition advance (t : Thread) (σ : Shared) : move :=
  match code t with
  | Ret _ => Over
  | Panic msg => Panics msg
  | Vis e k =>
      match exec e σ (out t) with
      | Done x σ' w' => Moved (mkThread (k x) w') σ'
      | Wait => Waits
      | Fatal msg => Faults msg
      end
  end.

Inductive step : Pool → Pool → Prop :=
| step_thread (c : Pool) (i : nat) (t t' : Thread) (σ' : Shared) :
    threads c !! i = Some t →
    advance t (shared c) = Moved t' σ' →
    step c (mkPool σ' (<[i:=t']> (threads c))).

(** Some thread is about to bring the process down. *)
Definition crashes (c : Pool) : Prop :=
  ∃ i t msg, threads c !! i = Some t ∧ advance t (shared c) = Faults msg.

(** Every handler has returned. *)
Definition finished (c : Pool) : Prop :=
  Forall (λ t, code t = Ret tt) (threads c).

(** One goroutine per request, each with a fresh writer. *)
Definition spawn (h : HandlerFunc) (rs : list Request) : list Thread :=
  (λ r, mkThread (h r) fresh) <$> rs.

(** Runs the threads in the order a schedule names them. *)
Fixpoint schedule (sched : list nat) (c : Pool) : option Pool :=
  match sched with
  | [] => Some c
  | i :: sched' =>
      match threads c !! i with
      | None => None
      | Some t =>
          match advance t (shared c) with
          | Moved t' σ' => schedule sched' (mkPool σ' (<[i:=t']> (threads c)))
          | _ => None
          end
      end
  end.

End Concurrent.

(** ** Vocabulary of the statements *)

Section Vocabulary.
Context `{Platform}.

(** The request presents the API key. *)
Definition authorized (r : Request) : Prop :=
  Get (Hdr r) "X-API-Key" = "secret-key".

(** The status the client receives, if it receives a response. *)
Definition status_of (s : served) : option Z :=
  match s with
  | Responded resp _ => Some (StatusCode resp)
  | _ => None
  end.

(** The requests that write to the map, with the key each one names:
    POST /books names the identifier inside the decoded body, PUT and
    DELETE /book/{id} name the identifier of the path. *)
Inductive touches : HandlerFunc → Request → string → Prop :=
| touches_post (r : Request) (book : Book) :
    Method r = "POST" →
    json_Decode (Body r) = inl book →
    touches handleBooks r (ID book)
| touches_put (r : Request) (id : string) :
    Method r = "PUT" →
    Path r = "/book/" ++ id →
    touches handleBook r id
| touches_delete (r : Request) (id : string) :
    Method r = "DELETE" →
    Path r = "/book/" ++ id →
    touches handleBook r id.

(** The five books of [initializeBooks]. *)
Definition seeds : list Book :=
  [ mkBook "1" "1984"; mkBook "2" "Brave New World";
    mkBook "3" "To Kill a Mockingbird"; mkBook "4" "The Great Gatsby";
    mkBook "5" "Moby Dick" ].

(** What is left of the handler of POST /books, for a body decoded to
    [b], once it has performed [pc] of its five actions: [mux.Lock()], the
    two steps of [books[book.ID] = book], [mux.Unlock()] and
    [w.WriteHeader(http.StatusCreated)]. *)
Definition post_at (b : Book) (pc : nat) : prog unit :=
  match pc with
  | 0%nat =>
      trigger mux_Lock ;;
      books_assign (ID b) b ;;
      trigger mux_Unlock ;;
      trigger (w_WriteHeader StatusCreated)
  | 1%nat =>
      books_assign (ID b) b ;;
      trigger mux_Unlock ;;
      trigger (w_WriteHeader StatusCreated)
  | 2%nat =>
      trigger (map_assign_commit (ID b) b) ;;
      trigger mux_Unlock ;;
      trigger (w_WriteHeader StatusCreated)
  | 3%nat =>
      trigger mux_Unlock ;;
      trigger (w_WriteHeader StatusCreated)
  | 4%nat => trigger (w_WriteHeader StatusCreated)
  | _ => Ret tt
  end.

Definition writer_at (pc : nat) : ResponseWriter :=
  if decide (pc < 5)%nat then fresh else WriteHeader StatusCreated fresh.

Definition thread_at (b : Book) (pc : nat) : Thread :=
  mkThread (post_at b pc) (writer_at pc).

(** Between [mux.Lock()] and [mux.Unlock()]. *)
Definition critical (pc : nat) : Prop := (1 ≤ pc ≤ 3)%nat.

(** The pools reachable in [n] steps from requests posting the books [bs]
    on the map [m0]: thread [i] has performed [pcs !! i] actions. *)
Record posting (bs : list Book) (m0 : gmap string Book) (n : nat)
    (pcs : list nat) (c : Pool) : Prop := mkPosting {
  posting_threads : threads c = zip_with thread_at bs pcs;
  posting_length : length pcs = length bs;
  posting_bound : Forall (λ pc, (pc ≤ 5)%nat) pcs;
  posting_count : sum_list pcs = n;
  posting_iterating : iterating (shared c) = 0%nat;
  posting_readers : Go.readers (mux (shared c)) = 0%nat;
  posting_writer :
    Go.writer (mux (shared c)) = true ↔ ∃ i pc, pcs !! i = Some pc ∧ critical pc;
  posting_alone :
    ∀ i j pi pj, pcs !! i = Some pi → pcs !! j = Some pj →
                 critical pi → critical pj → i = j;
  posting_writing :
    hashWriting (shared c) = true ↔ ∃ i, pcs !! i = Some 2%nat;
  posting_stored :
    ∀ i b pc, bs !! i = Some b → pcs !! i = Some pc → (3 ≤ pc)%nat →
              books (shared c) !! ID b = Some b;
  posting_frame :
    ∀ k, k ∉ ID <$> bs → books (shared c) !! k = m0 !! k
}.

End Vocabulary.

(** ** Vocabulary of the properties of every request *)

Section Discipline.
Context `{Platform}.

(** The requests that, once authorized, write to the map: a POST on
    /books or a PUT on /book/ whose body decodes, and a DELETE on /book/. *)
Definition mutating (pat : string) (r : Request) : Prop :=
  (pat = "/books" ∧ Method r = "POST" ∧ ∃ b, json_Decode (Body r) = inl b)
  ∨ (pat = "/book/"
     ∧ ((Method r = "PUT" ∧ ∃ b, json_Decode (Body r) = inl b)
        ∨ Method r = "DELETE")).

(** The requests that store a record, with the key and the record: POST
    on /books stores the decoded body under the identifier it carries, PUT
    on /book/{id} stores it under the identifier of the path. *)
Inductive stores : HandlerFunc → Request → string → Book → Prop :=
| stores_post (r : Request) (book : Book) :
    Method r = "POST" →
    json_Decode (Body r) = inl book →
    stores handleBooks r (ID book) book
| stores_put (r : Request) (id : string) (book : Book) :
    Method r = "PUT" →
    Path r = "/book/" ++ id →
    json_Decode (Body r) = inl book →
    stores handleBook r id book.

(** Where a thread stands: it has not taken the mutex yet, it holds it for
    reading (and is possibly inside a [range] loop), it holds it for writing
    (and is possibly inside a map write), or it has released it. *)
Inductive mode : Type :=
  Idle | Reading | Ranging | Holding | Writing | Released.

Global Instance mode_eq_dec : EqDecision mode.
Proof. solve_decision. Defined.

(** A program keeps the locking discipline from the mode [md] and returns
    within [n] actions: it reads the map only while it holds the mutex,
    writes it only while it holds the mutex for writing, takes the mutex at
    most once and releases it before it returns or panics. *)
Fixpoint disciplined (n : nat) (md : mode) (p : prog unit) : Prop :=
  match p with
  | Ret _ => md = Idle ∨ md = Released
  | Panic _ => md = Idle ∨ md = Released
  | Vis e k =>
      match n with
      | O => False
      | S n' =>
          match e in Eff X return (X → prog unit) → Prop with
          | mux_RLock => λ k, md = Idle ∧ disciplined n' Reading (k tt)
          | mux_RUnlock => λ k, md = Reading ∧ disciplined n' Released (k tt)
          | mux_Lock => λ k, md = Idle ∧ disciplined n' Holding (k tt)
          | mux_Unlock => λ k, md = Holding ∧ disciplined n' Released (k tt)
          | map_len =>
              λ k, (md = Reading ∨ md = Holding) ∧ ∀ x, disciplined n' md (k x)
          | map_access _ =>
              λ k, (md = Reading ∨ md = Holding) ∧ ∀ x, disciplined n' md (k x)
          | map_write_begin => λ k, md = Holding ∧ disciplined n' Writing (k tt)
          | map_assign_commit _ _ =>
              λ k, md = Writing ∧ disciplined n' Holding (k tt)
          | map_delete_commit _ =>
              λ k, md = Writing ∧ disciplined n' Holding (k tt)
          | map_range_begin =>
              λ k, md = Reading ∧ ∀ l, disciplined n' Ranging (k l)
          | map_range_end => λ k, md = Ranging ∧ disciplined n' Reading (k tt)
          | w_WriteHeader _ => λ k, disciplined n' md (k tt)
          | w_Write _ => λ k, disciplined n' md (k tt)
          end k
      end
  end.

Definition b2n (b : bool) : nat := if b then 1%nat else 0%nat.

(** What a thread in a given mode contributes to the counters of the
    shared state. *)
Definition as_reader (tag : mode * nat) : nat :=
  match tag.1 with Reading | Ranging => 1%nat | _ => 0%nat end.
Definition as_ranger (tag : mode * nat) : nat :=
  match tag.1 with Ranging => 1%nat | _ => 0%nat end.
Definition as_holder (tag : mode * nat) : nat :=
  match tag.1 with Holding | Writing => 1%nat | _ => 0%nat end.
Definition as_writer (tag : mode * nat) : nat :=
  match tag.1 with Writing => 1%nat | _ => 0%nat end.

Definition tally (f : mode * nat → nat) (tags : list (mode * nat)) : nat :=
  sum_list (f <$> tags).

(** A pool in which every thread keeps the discipline from its mode and
    the shared state counts the threads as it should; [n] bounds the
    actions still to come. *)
Record orderly (n : nat) (tags : list (mode * nat)) (c : Pool) : Prop :=
  mkOrderly {
  orderly_threads :
    Forall2 (λ t tag, disciplined tag.2 tag.1 (code t)) (threads c) tags;
  orderly_budget : sum_list (snd <$> tags) = n;
  orderly_readers : Go.readers (mux (shared c)) = tally as_reader tags;
  orderly_ranging : iterating (shared c) = tally as_ranger tags;
  orderly_holder : b2n (Go.writer (mux (shared c))) = tally as_holder tags;
  orderly_writing : b2n (hashWriting (shared c)) = tally as_writer tags;
  orderly_exclusive : tally as_holder tags = 0%nat ∨ tally as_reader tags = 0%nat
}.

(** The mode a thread is in once it has performed an action. *)
Definition after {X} (e : Eff X) (md : mode) : mode :=
  match e with
  | mux_RLock => Reading
  | mux_RUnlock => Released
  | mux_Lock => Holding
  | mux_Unlock => Released
  | map_write_begin => Writing
  | map_assign_commit _ _ => Holding
  | map_delete_commit _ => Holding
  | map_range_begin => Ranging
  | map_range_end => Reading
  | _ => md
  end.

(** The actions that give the mutex back. *)
Definition releases {X} (e : Eff X) : bool :=
  match e with
  | mux_RUnlock | mux_Unlock => true
  | _ => false
  end.

(** Holding the mutex, for reading or for writing. *)
Definition inside (md : mode) : Prop :=
  md = Reading ∨ md = Ranging ∨ md = Holding ∨ md = Writing.

(** Every handler has returned or panicked. *)
Definition settled (c : Pool) : Prop :=
  Forall (λ t, match code t with Vis _ _ => False | _ => True end) (threads c).

(** One goroutine per request, each on the handler its route names. *)
Definition spawn_all (hrs : list (HandlerFunc * Request)) : list Thread :=
  (λ hr, mkThread (hr.1 hr.2) fresh) <$> hrs.

(** How a handler ended: it returned, leaving a writer, or it panicked. *)
Inductive verdict : Type :=
| Answered (w : ResponseWriter)
| Paniced (msg : string).

(** What a program does to its writer and to the map when nothing else
    touches them: the mutex and the flags of the runtime are left out. *)
Fixpoint solo (p : prog unit) (w : ResponseWriter) (m : gmap string Book)
    : verdict * gmap string Book :=
  match p with
  | Ret _ => (Answered w, m)
  | Panic msg => (Paniced msg, m)
  | Vis e k =>
      match e in Eff X return (X → prog unit) → verdict * gmap string Book with
      | mux_RLock => λ k, solo (k tt) w m
      | mux_RUnlock => λ k, solo (k tt) w m
      | mux_Lock => λ k, solo (k tt) w m
      | mux_Unlock => λ k, solo (k tt) w m
      | map_len => λ k, solo (k (size m)) w m
      | map_access key => λ k, solo (k (m !! key)) w m
      | map_write_begin => λ k, solo (k tt) w m
      | map_assign_commit key v => λ k, solo (k tt) w (<[key:=v]> m)
      | map_delete_commit key => λ k, solo (k tt) w (delete key m)
      | map_range_begin => λ k, solo (k (mapiter m)) w m
      | map_range_end => λ k, solo (k tt) w m
      | w_WriteHeader code => λ k, solo (k tt) (WriteHeader code w) m
      | w_Write bytes => λ k, solo (k tt) (Write bytes w) m
      end k
  end.

(** What the client of a request sees: a response, a dropped connection
    (the handler panicked), or nothing yet. *)
Inductive seen : Type :=
| Got (resp : Response)
| Dropped (msg : string)
| Nothing.

Definition seen_of_served (s : served) : seen :=
  match s with
  | Responded resp _ => Got resp
  | Aborted msg _ => Dropped msg
  | _ => Nothing
  end.

Definition seen_of_thread (t : Thread) : seen :=
  match code t with
  | Ret _ => Got (finish (out t))
  | Panic msg => Dropped msg
  | Vis _ _ => Nothing
  end.

Definition map_after (s : served) (m : gmap string Book) : gmap string Book :=
  match s with
  | Responded _ σ => books σ
  | Aborted _ σ => books σ
  | Hung σ => books σ
  | Died _ => m
  end.

(** The requests served one at a time, in the order given (by position in
    the list), each from the map the one before left: what each client
    sees, and the map at the end. *)
Fixpoint in_turn (hrs : list (HandlerFunc * Request)) (order : list nat)
    (m : gmap string Book) : list (nat * seen) * gmap string Book :=
  match order with
  | [] => ([], m)
  | i :: order' =>
      match hrs !! i with
      | None => in_turn hrs order' m
      | Some hr =>
          let s := serve hr.1 hr.2 (at_rest m) in
          let rest := in_turn hrs order' (map_after s m) in
          ((i, seen_of_served s) :: rest.1, rest.2)
      end
  end.

Definition seen_of_verdict (v : verdict) : seen :=
  match v with
  | Answered w => Got (finish w)
  | Paniced msg => Dropped msg
  end.

(** What the pool shows for an entry of a list of answers: the thread of
    that position shows that answer. *)
Definition shown (c : Pool) (iv : nat * seen) : Prop :=
  ∃ t, threads c !! iv.1 = Some t ∧ seen_of_thread t = iv.2.

(** The shared state in which one thread in the given mode is alone. *)
Definition alone_in (md : mode) (m : gmap string Book) : Shared :=
  match md with
  | Idle | Released => at_rest m
  | Reading => mkShared m false 0 (Go.mkRWMutex false 1)
  | Ranging => mkShared m false 1 (Go.mkRWMutex false 1)
  | Holding => mkShared m false 0 (Go.mkRWMutex true 0)
  | Writing => mkShared m true 0 (Go.mkRWMutex true 0)
  end.

(** The map after the requests of a history have been served in turn; a
    history lists the threads that released the mutex, in the order they
    did, each with the map it found. *)
Definition next_map (hrs : list (HandlerFunc * Request))
    (m : gmap string Book) (i : nat) : gmap string Book :=
  match hrs !! i with
  | Some hr => (solo (hr.1 hr.2) fresh m).2
  | None => m
  end.

Fixpoint chained (hrs : list (HandlerFunc * Request))
    (hist : list (nat * gmap string Book)) (m V : gmap string Book) : Prop :=
  match hist with
  | [] => V = m
  | ib :: hist' => ib.2 = m ∧ chained hrs hist' (next_map hrs m ib.1) V
  end.

(** What is known of thread [i] while the requests run together. *)
Definition accounted (hrs : list (HandlerFunc * Request))
    (hist : list (nat * gmap string Book)) (V : gmap string Book)
    (σ : Shared) (i : nat) (t : Thread) (md : mode) : Prop :=
  ∃ hr, hrs !! i = Some hr ∧
    match md with
    | Idle =>
        (∀ m, solo (code t) (out t) m = solo (hr.1 hr.2) fresh m)
        ∧ i ∉ hist.*1
    | Released =>
        ∃ b, (i, b) ∈ hist
           ∧ ∀ m, solo (code t) (out t) m = ((solo (hr.1 hr.2) fresh b).1, m)
    | _ =>
        solo (code t) (out t) (books σ) = solo (hr.1 hr.2) fresh V
        ∧ i ∉ hist.*1
    end.

(** The pools reached while the requests [hrs] run together from the map
    [m0]: the counters are in order and every thread is accounted for. *)
Record serial_so_far (hrs : list (HandlerFunc * Request))
    (m0 : gmap string Book) (N : nat) (tags : list (mode * nat))
    (hist : list (nat * gmap string Book)) (V : gmap string Book)
    (c : Pool) : Prop := mkSerial {
  serial_orderly : orderly N tags c;
  serial_accounted :
    ∀ i t md n, threads c !! i = Some t → tags !! i = Some (md, n) →
                accounted hrs hist V (shared c) i t md;
  serial_chained : chained hrs hist m0 V;
  serial_view : tally as_holder tags = 0%nat → books (shared c) = V;
  serial_once : NoDup hist.*1;
  serial_released :
    ∀ i b, (i, b) ∈ hist → ∃ n, tags !! i = Some (Released, n)
}.

End Discipline.

(** ** Scenarios on the reference platform *)

Module Scenario.
Import Reference.

Definition orwell : Book := mkBook "1" "1984".
Definition huxley : Book := mkBook "2" "Brave New World".

Definition shelf : gmap string Book := <["1":=orwell]> (<["2":=huxley]> ∅).

Definition books_route : HandlerFunc := authenticate (handleBooks (H:=platform)).
Definition book_route : HandlerFunc := authenticate (handleBook (H:=platform)).

Definition two_posts_start : Pool :=
  mkPool (at_rest ∅) (spawn books_route two_posts).

Definition one_by_one : list nat := [0; 0; 0; 0; 1; 0; 1; 1; 1; 1]%nat.

End Scenario.

Module Cases.
Import Reference Scenario.

Definition messiah : Book := mkBook "6" "Dune Messiah".

(** The mutex held by a writer that is not in the middle of a write. *)
Definition write_locked (m : gmap string Book) : Shared :=
  mkShared m false 0 (Go.mkRWMutex true 0).

(** A listing, an update and a deletion arriving together. *)
Definition mixed : list (HandlerFunc * Request) :=
  [ (books_route, request "GET" "/books" EmptyString);
    (book_route, request "PUT" "/book/6" (wire dune));
    (book_route, request "DELETE" "/book/1" EmptyString) ].

Definition mixed_start : Pool := mkPool (at_rest shelf) (spawn_all mixed).

Definition reader_first : list nat :=
  [0; 0; 0; 0; 0; 1; 0; 1; 1; 1; 1; 2; 2; 2; 2; 2]%nat.

End Cases.

(** * Properties of a request served alone *)

Section Sequential.
Context `{Platform}.

Lemma str_from_prefix (p s : string) :
  Go.str_from (String.length p) (p ++ s) = Some s.
Proof. induction p as [|c p IH]; simpl; auto. Qed.

Lemma missing_key_unauthorized (r : Request) :
  Hdr r !! "X-Api-Key" = None → ¬ authorized r.
Proof.
  unfold authorized, Get. intros Hnone.
  change (CanonicalMIMEHeaderKey "X-API-Key") with "X-Api-Key".
  rewrite Hnone. discriminate.
Qed.

Lemma authenticate_reject (next : HandlerFunc) (r : Request) :
  ¬ authorized r →
  authenticate next r = Error "Unauthorized" StatusUnauthorized.
Proof.
  intros Hk. unfold authenticate.
  destruct (decide _) as [_|Hn]; [reflexivity|].
  exfalso. apply Hn. exact Hk.
Qed.

Lemma authenticate_accept (next : HandlerFunc) (r : Request) :
  authorized r → authenticate next r = next r.
Proof.
  intros Hk. unfold authenticate.
  destruct (decide _) as [Hn|_]; [|reflexivity].
  exfalso. apply Hn. exact Hk.
Qed.

Lemma serve_Error (h : HandlerFunc) (r : Request) (msg : string) (code : Z) (σ : Shared) :
  h r = Error msg code →
  bodyAllowedForStatus code = true →
  serve h r σ = Responded (mkResponse code (msg ++ newline)) σ.
Proof.
  intros Hh Hc. unfold serve. rewrite Hh. simpl.
  unfold Write. simpl. rewrite Hc. reflexivity.
Qed.

Lemma serve_authorized (next : HandlerFunc) (r : Request) (σ : Shared) :
  authorized r → serve (authenticate next) r σ = serve next r σ.
Proof. intros Hk. unfold serve. rewrite authenticate_accept; auto. Qed.

(** The loop of [handleBooks] collects the values in the order visited. *)
Lemma collect_values (entries : list (string * Book)) (acc : list Book) :
  foldl (λ a kv, Go.append a kv.2) (Go.mk_slice acc) entries
  = Go.mk_slice (acc ++ entries.*2).
Proof.
  revert acc. induction entries as [|kv entries IH]; intros acc; simpl.
  - by rewrite app_nil_r.
  - rewrite IH. by rewrite <- app_assoc.
Qed.

Lemma handleBooks_GET (r : Request) (m : gmap string Book) :
  Method r = "GET" →
  serve handleBooks r (at_rest m)
  = Responded (mkResponse StatusOK
                 (json.Marshal_slice (Go.mk_slice (mapiter m).*2) ++ newline))
              (at_rest m).
Proof.
  intros Hm. unfold serve, handleBooks. rewrite Hm. simpl.
  rewrite (collect_values (mapiter m) []). reflexivity.
Qed.

Lemma handleBooks_POST (r : Request) (book : Book) (m : gmap string Book) :
  Method r = "POST" →
  json_Decode (Body r) = inl book →
  serve handleBooks r (at_rest m)
  = Responded (mkResponse StatusCreated EmptyString)
              (at_rest (<[ID book:=book]> m)).
Proof.
  intros Hm Hd. unfold serve, handleBooks. rewrite Hm, Hd. reflexivity.
Qed.

Lemma handleBooks_POST_malformed (r : Request) (err : string) (m : gmap string Book) :
  Method r = "POST" →
  json_Decode (Body r) = inr err →
  serve handleBooks r (at_rest m)
  = Responded (mkResponse StatusBadRequest (err ++ newline)) (at_rest m).
Proof.
  intros Hm Hd. unfold serve, handleBooks. rewrite Hm, Hd. reflexivity.
Qed.

Lemma handleBook_GET (r : Request) (id : string) (m : gmap string Book) :
  Method r = "GET" →
  Path r = "/book/" ++ id →
  serve handleBook r (at_rest m)
  = match m !! id with
    | Some book =>
        Responded (mkResponse StatusOK (json.Marshal_Book book ++ newline))
                  (at_rest m)
    | None =>
        Responded (mkResponse StatusNotFound ("404 page not found" ++ newline))
                  (at_rest m)
    end.
Proof.
  intros Hm Hp. unfold serve, handleBook.
  rewrite Hp, str_from_prefix, Hm. simpl.
  destruct (m !! id); reflexivity.
Qed.

Lemma handleBook_PUT (r : Request) (id : string) (book : Book) (m : gmap string Book) :
  Method r = "PUT" →
  Path r = "/book/" ++ id →
  json_Decode (Body r) = inl book →
  serve handleBook r (at_rest m)
  = Responded (mkResponse StatusOK (json.Marshal_Book book ++ newline))
              (at_rest (<[id:=book]> m)).
Proof.
  intros Hm Hp Hd. unfold serve, handleBook.
  rewrite Hp, str_from_prefix, Hm. simpl. rewrite Hd. reflexivity.
Qed.

Lemma handleBook_PUT_malformed (r : Request) (id err : string) (m : gmap string Book) :
  Method r = "PUT" →
  Path r = "/book/" ++ id →
  json_Decode (Body r) = inr err →
  serve handleBook r (at_rest m)
  = Responded (mkResponse StatusBadRequest (err ++ newline)) (at_rest m).
Proof.
  intros Hm Hp Hd. unfold serve, handleBook.
  rewrite Hp, str_from_prefix, Hm. simpl. rewrite Hd. reflexivity.
Qed.

Lemma handleBook_DELETE (r : Request) (id : string) (m : gmap string Book) :
  Method r = "DELETE" →
  Path r = "/book/" ++ id →
  serve handleBook r (at_rest m)
  = Responded (mkResponse StatusNoContent EmptyString) (at_rest (delete id m)).
Proof.
  intros Hm Hp. unfold serve, handleBook.
  rewrite Hp, str_from_prefix, Hm. reflexivity.
Qed.

(** C1.  On both registered routes and for every method, a request whose
    X-API-Key header is missing, or whose value is not the secret, is
    answered with status 401 and the text Unauthorized (terminated by a line
    feed, as [http.Error] writes it); the shared state, whatever it is, is
    left as it was, and the wrapped handler is not run: whichever handler
    [authenticate] wraps, the program is the one of [http.Error]. *)
Theorem unauthorized_is_rejected
    (pat : string) (h : HandlerFunc) (r : Request) (σ : Shared) :
  (pat, h) ∈ routes →
  Hdr r !! "X-Api-Key" = None ∨ Get (Hdr r) "X-API-Key" ≠ "secret-key" →
  serve h r σ
  = Responded (mkResponse StatusUnauthorized ("Unauthorized" ++ newline)) σ
  ∧ (∀ next : HandlerFunc,
       authenticate next r = Error "Unauthorized" StatusUnauthorized
       ∧ serve (authenticate next) r σ = serve h r σ).
Proof.
  intros Hroute Hkey.
  assert (Hbad : ¬ authorized r).
  { destruct Hkey as [Hnone|Hne]; [by apply missing_key_unauthorized|exact Hne]. }
  assert (Hany : ∀ next : HandlerFunc,
            serve (authenticate next) r σ
            = Responded (mkResponse StatusUnauthorized ("Unauthorized" ++ newline)) σ).
  { intros next. apply serve_Error; [by apply authenticate_reject|reflexivity]. }
  assert (Hh : ∃ next, h = authenticate next).
  { unfold routes in Hroute.
    apply elem_of_cons in Hroute as [Heq|Hroute]; [inversion Heq; eauto|].
    apply list_elem_of_singleton in Hroute. inversion Hroute; eauto. }
  destruct Hh as [next0 ->].
  split; [apply Hany|].
  intros next. split; [by apply authenticate_reject|].
  by rewrite !Hany.
Qed.

(** C2.  PUT /book/{id} with a body that decodes to a record stores that
    record under the key id, whatever the map held before, and answers 200
    with the JSON of the record; the key of the map is the identifier of
    the path even when the record carries another one, and a GET of the same
    path afterwards answers 200 with the same body. *)
Theorem put_stores_under_path_id
    (r g : Request) (id : string) (book : Book) (m : gmap string Book) :
  authorized r → Method r = "PUT" → Path r = "/book/" ++ id →
  json_Decode (Body r) = inl book →
  authorized g → Method g = "GET" → Path g = "/book/" ++ id →
  let m' := <[id:=book]> m in
  serve (authenticate handleBook) r (at_rest m)
  = Responded (mkResponse StatusOK (json.Marshal_Book book ++ newline))
              (at_rest m')
  ∧ m' !! id = Some book
  ∧ (ID book ≠ id → ∃ stored, m' !! id = Some stored ∧ ID stored ≠ id)
  ∧ serve (authenticate handleBook) g (at_rest m')
    = Responded (mkResponse StatusOK (json.Marshal_Book book ++ newline))
                (at_rest m').
Proof.
  intros Hr Hm Hp Hd Hg Hgm Hgp m'.
  assert (Hl : m' !! id = Some book) by apply lookup_insert_eq.
  split_and!.
  - rewrite serve_authorized by done. by apply handleBook_PUT.
  - exact Hl.
  - intros Hne. exists book. by split.
  - rewrite serve_authorized by done.
    rewrite (handleBook_GET g id) by done. by rewrite Hl.
Qed.

(** C3.  POST /books with a body that decodes to a record stores the record
    under the identifier the record carries, whether or not that key was
    taken, and answers 201 with an empty body; a GET of /book/{that
    identifier} afterwards answers 200 with the JSON of the record. *)
Theorem post_stores_under_own_id
    (r g : Request) (book : Book) (m : gmap string Book) :
  authorized r → Method r = "POST" →
  json_Decode (Body r) = inl book →
  authorized g → Method g = "GET" → Path g = "/book/" ++ ID book →
  let m' := <[ID book:=book]> m in
  serve (authenticate handleBooks) r (at_rest m)
  = Responded (mkResponse StatusCreated EmptyString) (at_rest m')
  ∧ m' !! ID book = Some book
  ∧ serve (authenticate handleBook) g (at_rest m')
    = Responded (mkResponse StatusOK (json.Marshal_Book book ++ newline))
                (at_rest m').
Proof.
  intros Hr Hm Hd Hg Hgm Hgp m'.
  assert (Hl : m' !! ID book = Some book) by apply lookup_insert_eq.
  split_and!.
  - rewrite serve_authorized by done. by apply handleBooks_POST.
  - exact Hl.
  - rewrite serve_authorized by done.
    rewrite (handleBook_GET g (ID book)) by done. by rewrite Hl.
Qed.

(** C4.  POST /books with a body that fails to decode answers 400 with the
    text of the decoding error (terminated by a line feed) and leaves the
    map exactly as it was. *)
Theorem post_malformed_is_400
    (r : Request) (err : string) (m : gmap string Book) :
  authorized r → Method r = "POST" →
  json_Decode (Body r) = inr err →
  serve (authenticate handleBooks) r (at_rest m)
  = Responded (mkResponse StatusBadRequest (err ++ newline)) (at_rest m).
Proof.
  intros Hr Hm Hd. rewrite serve_authorized by done.
  by apply handleBooks_POST_malformed.
Qed.

(** C5.  DELETE /book/{id} answers 204 with an empty body in every state of
    the map; the record under id is gone afterwards and the map is
    untouched when there was none; a GET of the same path then answers 404,
    and a second DELETE answers 204 again and changes nothing. *)
Theorem delete_is_idempotent
    (r g : Request) (id : string) (m : gmap string Book) :
  authorized r → Method r = "DELETE" → Path r = "/book/" ++ id →
  authorized g → Method g = "GET" → Path g = "/book/" ++ id →
  let m' := delete id m in
  serve (authenticate handleBook) r (at_rest m)
  = Responded (mkResponse StatusNoContent EmptyString) (at_rest m')
  ∧ m' !! id = None
  ∧ (m !! id = None → m' = m)
  ∧ status_of (serve (authenticate handleBook) g (at_rest m'))
    = Some StatusNotFound
  ∧ serve (authenticate handleBook) r (at_rest m')
    = Responded (mkResponse StatusNoContent EmptyString) (at_rest m').
Proof.
  intros Hr Hm Hp Hg Hgm Hgp m'.
  assert (Hl : m' !! id = None) by apply lookup_delete_eq.
  split_and!.
  - rewrite serve_authorized by done. by apply handleBook_DELETE.
  - exact Hl.
  - intros Hnone. by apply delete_id.
  - rewrite serve_authorized by done.
    rewrite (handleBook_GET g id) by done. by rewrite Hl.
  - rewrite serve_authorized by done.
    rewrite (handleBook_DELETE r id) by done.
    by rewrite (delete_id m' id Hl).
Qed.

(** C6.  GET /book/{id}, where id is whatever follows the prefix /book/ in
    the path (the empty string included), answers 404 exactly when the map
    has no record under the key id, and otherwise 200 with the JSON of the
    record stored under it; the map is not changed. *)
Theorem get_by_id
    (r : Request) (id : string) (m : gmap string Book) :
  authorized r → Method r = "GET" → Path r = "/book/" ++ id →
  let s := serve (authenticate handleBook) r (at_rest m) in
  (status_of s = Some StatusNotFound ↔ m !! id = None)
  ∧ (∀ book, m !! id = Some book →
       s = Responded (mkResponse StatusOK (json.Marshal_Book book ++ newline))
                     (at_rest m))
  ∧ (m !! id = None →
       s = Responded (mkResponse StatusNotFound ("404 page not found" ++ newline))
                     (at_rest m))
  ∧ (id = EmptyString → Path r = "/book/" ∧ ∀ book, m !! EmptyString = Some book →
       status_of s = Some StatusOK).
Proof.
  intros Hr Hm Hp s.
  assert (Hs : s = serve handleBook r (at_rest m)).
  { unfold s. by rewrite serve_authorized. }
  rewrite (handleBook_GET r id) in Hs by done.
  split_and!.
  - rewrite Hs. destruct (m !! id); simpl; split; intros; done.
  - intros book Hb. by rewrite Hs, Hb.
  - intros Hnone. by rewrite Hs, Hnone.
  - intros ->. split; [exact Hp|]. intros book Hb. by rewrite Hs, Hb.
Qed.

(** C7.  When [main] has run [initializeBooks] on the empty map, the map
    holds exactly the five seeded books, each under its own identifier 1 to
    5 and with its title, and a GET of /books answers 200 with a JSON array
    of exactly those five books, in the order the runtime visits them. *)
Theorem startup_seeds_five_books (g : Request) :
  authorized g → Method g = "GET" →
  ∃ (m : gmap string Book) (l : list Book),
    startup = Returned tt (at_rest m) fresh
    ∧ map_to_list m ≡ₚ (λ b, (ID b, b)) <$> seeds
    ∧ size m = 5%nat
    ∧ l ≡ₚ seeds
    ∧ serve (authenticate handleBooks) g (at_rest m)
      = Responded (mkResponse StatusOK
                     (json.Marshal_slice (Go.mk_slice l) ++ newline))
                  (at_rest m).
Proof.
  intros Hg Hm.
  set (kvs := (λ b, (ID b, b)) <$> reverse seeds).
  assert (Hperm : map_to_list (list_to_map kvs : gmap string Book)
                  ≡ₚ (λ b, (ID b, b)) <$> seeds).
  { rewrite map_to_list_to_map.
    - unfold kvs. by rewrite fmap_reverse, reverse_Permutation.
    - unfold kvs. compute_done. }
  exists (list_to_map kvs), (mapiter (list_to_map kvs)).*2.
  split_and!.
  - reflexivity.
  - exact Hperm.
  - rewrite <- length_map_to_list, Hperm. reflexivity.
  - rewrite mapiter_perm, Hperm.
    change (((λ b, (ID b, b)) <$> seeds).*2) with seeds. reflexivity.
  - rewrite serve_authorized by done. by apply handleBooks_GET.
Qed.

(** C8.  GET /books answers 200 with a JSON array (never [null]) of exactly
    the records the map holds, in the order the runtime visits them, and
    leaves the map alone; on the empty map the body is the empty array
    (followed by the line feed of the encoder). *)
Theorem list_answers_array (r : Request) (m : gmap string Book) :
  authorized r → Method r = "GET" →
  ∃ l : list Book,
    l ≡ₚ (map_to_list m).*2
    ∧ serve (authenticate handleBooks) r (at_rest m)
      = Responded (mkResponse StatusOK
                     (json.Marshal_slice (Go.mk_slice l) ++ newline))
                  (at_rest m)
    ∧ json.Marshal_slice (Go.mk_slice l)
      = "[" ++ json.join "," (json.Marshal_Book <$> l) ++ "]"
    ∧ (m = ∅ →
       serve (authenticate handleBooks) r (at_rest m)
       = Responded (mkResponse StatusOK ("[]" ++ newline)) (at_rest m)).
Proof.
  intros Hr Hm.
  assert (Hs : serve (authenticate handleBooks) r (at_rest m)
               = Responded (mkResponse StatusOK
                   (json.Marshal_slice (Go.mk_slice (mapiter m).*2) ++ newline))
                   (at_rest m)).
  { rewrite serve_authorized by done. by apply handleBooks_GET. }
  exists (mapiter m).*2. split_and!.
  - by rewrite mapiter_perm.
  - exact Hs.
  - reflexivity.
  - intros ->. rewrite Hs.
    assert (Hnil : mapiter (∅ : gmap string Book) = []).
    { apply Permutation_nil_r. rewrite mapiter_perm.
      by rewrite map_to_list_empty. }
    by rewrite Hnil.
Qed.

(** C9.  A request that writes to the map names one key (the identifier in
    the decoded body for POST /books, the identifier of the path for PUT
    and DELETE /book/{id}); it is answered, and what the map holds under
    every other key is what it held before. *)
Theorem writes_touch_one_key
    (h : HandlerFunc) (r : Request) (k k' : string) (m : gmap string Book) :
  authorized r → touches h r k → k' ≠ k →
  ∃ (resp : Response) (m' : gmap string Book),
    serve (authenticate h) r (at_rest m) = Responded resp (at_rest m')
    ∧ m' !! k' = m !! k'.
Proof.
  intros Hr Ht Hne. rewrite serve_authorized by done.
  destruct Ht as [r book Hm Hd | r id Hm Hp | r id Hm Hp].
  - eexists _, _. split; [by apply handleBooks_POST|].
    by apply lookup_insert_ne.
  - destruct (json_Decode (Body r)) as [book|err] eqn:Hd.
    + eexists _, _. split; [by eapply handleBook_PUT|].
      by apply lookup_insert_ne.
    + eexists _, _. split; [by eapply handleBook_PUT_malformed|done].
  - eexists _, _. split; [by apply handleBook_DELETE|].
    by apply lookup_delete_ne.
Qed.

End Sequential.

(** * Properties of requests served at the same time *)

Section Parallel.
Context `{Platform}.

Lemma sum_list_insert_S (pcs : list nat) (i pc : nat) :
  pcs !! i = Some pc → sum_list (<[i:=S pc]> pcs) = S (sum_list pcs).
Proof.
  revert i. induction pcs as [|x pcs IH]; intros [|i] Hi; simplify_eq/=; auto.
  rewrite IH by done. lia.
Qed.

Lemma sum_list_bound (pcs : list nat) :
  Forall (λ pc, (pc ≤ 5)%nat) pcs → (sum_list pcs ≤ 5 * length pcs)%nat.
Proof. induction 1; simpl; lia. Qed.

Lemma spawn_posts (rs : list Request) (bs : list Book) :
  Forall2 (λ r b, authorized r ∧ Method r = "POST"
                  ∧ json_Decode (Body r) = inl b) rs bs →
  spawn (authenticate handleBooks) rs
  = zip_with thread_at bs (replicate (length bs) 0%nat).
Proof.
  induction 1 as [|r b rs bs (Hk & Hm & Hd) _ IH]; [reflexivity|].
  unfold spawn in *. rewrite fmap_cons, IH.
  cbn [length replicate zip_with]. f_equal.
  unfold thread_at. f_equal.
  rewrite authenticate_accept by done.
  unfold handleBooks. rewrite Hm, Hd. reflexivity.
Qed.

Lemma posting_initial (rs : list Request) (bs : list Book) (m0 : gmap string Book) :
  Forall2 (λ r b, authorized r ∧ Method r = "POST"
                  ∧ json_Decode (Body r) = inl b) rs bs →
  posting bs m0 0 (replicate (length bs) 0%nat)
          (mkPool (at_rest m0) (spawn (authenticate handleBooks) rs)).
Proof.
  intros Hrs. split; simpl.
  - by apply spawn_posts.
  - by rewrite length_replicate.
  - apply Forall_replicate. lia.
  - rewrite sum_list_replicate. lia.
  - done.
  - done.
  - split; [done|]. intros (i & pc & Hi & Hc).
    apply lookup_replicate in Hi as [-> _]. unfold critical in Hc. lia.
  - intros i j pi pj Hi _ Hc _.
    apply lookup_replicate in Hi as [-> _]. unfold critical in Hc. lia.
  - split; [done|]. intros (i & Hi).
    apply lookup_replicate in Hi as [? _]. done.
  - intros i b pc _ Hi Hpc.
    apply lookup_replicate in Hi as [-> _]. lia.
  - done.
Qed.


Lemma posting_thread bs m0 n pcs c i t :
  posting bs m0 n pcs c → threads c !! i = Some t →
  ∃ b pc, bs !! i = Some b ∧ pcs !! i = Some pc ∧ (pc ≤ 5)%nat
          ∧ t = thread_at b pc.
Proof.
  intros Hinv Hi. rewrite (posting_threads _ _ _ _ _ Hinv) in Hi.
  apply lookup_zip_with_Some in Hi as (b & pc & -> & Hb & Hpc).
  exists b, pc. split_and!; try done.
  by apply (Forall_lookup_1 _ _ _ _ (posting_bound _ _ _ _ _ Hinv) Hpc).
Qed.

Ltac pcs_cases :=
  repeat match goal with
  | H : <[_:=_]> _ !! _ = Some _ |- _ =>
      apply list_lookup_insert_Some in H as [(? & ? & _)|(? & H)]; simplify_eq
  end.

Lemma lookup_insert_here (pcs : list nat) (i pc x : nat) :
  pcs !! i = Some pc → <[i:=x]> pcs !! i = Some x.
Proof. intros Hi. apply list_lookup_insert_eq. by eapply lookup_lt_Some. Qed.

Lemma lookup_insert_there (pcs : list nat) (i j x y : nat) :
  pcs !! j = Some y → j ≠ i → <[i:=x]> pcs !! j = Some y.
Proof. intros Hj Hne. by rewrite list_lookup_insert_ne. Qed.

Lemma posting_step bs m0 n pcs c c' :
  NoDup (ID <$> bs) →
  posting bs m0 n pcs c → step c c' →
  ∃ pcs', posting bs m0 (S n) pcs' c'.
Proof.
  intros Hnd Hinv Hstep. destruct Hstep as [c i t t' σ' Hi Hadv].
  destruct (posting_thread _ _ _ _ _ _ _ Hinv Hi) as (b & pc & Hb & Hpc & Hle & ->).
  destruct c as [[bk hw it [wr rd]] ths].
  destruct Hinv as [Hth Hlen Hbound Hsum Hit Hrd Hwr Hal Hwg Hst Hfr].
  simpl in *. subst it rd ths.
  exists (<[i:=S pc]> pcs).
  assert (Hths : <[i:=thread_at b (S pc)]> (zip_with thread_at bs pcs)
                 = zip_with thread_at bs (<[i:=S pc]> pcs)).
  { by rewrite insert_zip_with, (list_insert_id bs i b Hb). }
  assert (Hlen' : length (<[i:=S pc]> pcs) = length bs)
    by (by rewrite length_insert).
  assert (Hsum' : sum_list (<[i:=S pc]> pcs) = S n)
    by (by rewrite (sum_list_insert_S pcs i pc Hpc), Hsum).
  assert (Hhere : <[i:=S pc]> pcs !! i = Some (S pc))
    by (by eapply lookup_insert_here).
  unfold advance in Hadv. unfold critical in *.
  destruct pc as [|[|[|[|[|[|?]]]]]]; [| | | | | |lia]; simpl in Hadv.
  - destruct wr; simplify_eq/=.
    split; unfold critical; simpl; try done.
    + apply Forall_insert; [done|lia].
    + split; [intros _|done]. exists i, 1%nat. split; [done|lia].
    + intros j1 j2 p1 p2 H1 H2 C1 C2. pcs_cases; try done.
      all: exfalso; assert (false = true); [apply Hwr; eauto|done].
    + rewrite Hwg. split; intros [j Hj].
      * exists j. apply lookup_insert_there; [done|]. intros ->. congruence.
      * pcs_cases. eauto.
    + intros j b' p Hb' Hj Hp. pcs_cases; [lia|eauto].
  - destruct hw; simplify_eq/=.
    split; unfold critical; simpl; try done.
    + apply Forall_insert; [done|lia].
    + rewrite Hwr. split; intros (j & p & Hj & Hc).
      * destruct (decide (j = i)) as [->|Hne].
        -- exists i, 2%nat. split; [done|lia].
        -- exists j, p. split; [by apply lookup_insert_there|done].
      * pcs_cases; [eexists _, _; split; [eassumption|lia]|eauto].
    + intros j1 j2 p1 p2 H1 H2 C1 C2. pcs_cases; try done.
      all: eapply Hal; eauto; lia.
    + split; [intros _|done]. by exists i.
    + intros j b' p Hb' Hj Hp. pcs_cases; [lia|eauto].
  - simplify_eq/=.
    split; unfold critical; simpl; try done.
    + apply Forall_insert; [done|lia].
    + rewrite Hwr. split; intros (j & p & Hj & Hc).
      * destruct (decide (j = i)) as [->|Hne].
        -- exists i, 3%nat. split; [done|lia].
        -- exists j, p. split; [by apply lookup_insert_there|done].
      * pcs_cases; [eexists _, _; split; [eassumption|lia]|eauto].
    + intros j1 j2 p1 p2 H1 H2 C1 C2. pcs_cases; try done.
      all: eapply Hal; eauto; lia.
    + split; [done|]. intros [j Hj]. pcs_cases.
      exfalso. assert (j = i); [eapply Hal; eauto; lia|done].
    + intros j b' p Hb' Hj Hp. pcs_cases.
      * apply lookup_insert_eq.
      * rewrite lookup_insert_ne; [eauto|].
        intros Heq. assert (i = j); [|done].
        eapply (NoDup_lookup _ _ _ _ Hnd); rewrite list_lookup_fmap.
        -- by rewrite Hb.
        -- by rewrite Hb', Heq.
    + intros k Hk. rewrite lookup_insert_ne; [by apply Hfr|].
      intros <-. apply Hk. apply list_elem_of_fmap_2.
      by eapply list_elem_of_lookup_2.
  - destruct wr; simplify_eq/=.
    split; unfold critical; simpl; try done.
    + apply Forall_insert; [done|lia].
    + split; [done|]. intros (j & p & Hj & Hc). pcs_cases; [lia|].
      exfalso. assert (j = i); [eapply Hal; eauto; lia|done].
    + intros j1 j2 p1 p2 H1 H2 C1 C2. pcs_cases; try lia.
      eapply Hal; eauto.
    + rewrite Hwg. split; intros [j Hj].
      * exists j. apply lookup_insert_there; [done|]. intros ->. congruence.
      * pcs_cases. eauto.
    + intros j b' p Hb' Hj Hp. pcs_cases; eauto.
  - simplify_eq/=.
    split; unfold critical; simpl; try done.
    + apply Forall_insert; [done|lia].
    + rewrite Hwr. split; intros (j & p & Hj & Hc).
      * exists j, p. split; [|done].
        apply lookup_insert_there; [done|]. intros ->.
        rewrite Hpc in Hj. simplify_eq. lia.
      * pcs_cases; [lia|eauto].
    + intros j1 j2 p1 p2 H1 H2 C1 C2. pcs_cases; try lia.
      eapply Hal; eauto.
    + rewrite Hwg. split; intros [j Hj].
      * exists j. apply lookup_insert_there; [done|]. intros ->. congruence.
      * pcs_cases. eauto.
    + intros j b' p Hb' Hj Hp. pcs_cases; eauto.
  - discriminate.
Qed.

Lemma posting_steps bs m0 k pcs c n c' :
  NoDup (ID <$> bs) →
  posting bs m0 k pcs c → nsteps step n c c' →
  ∃ pcs', posting bs m0 (k + n) pcs' c'.
Proof.
  intros Hnd Hinv Hsteps. revert k pcs Hinv.
  induction Hsteps as [c|n c c1 c' Hstep _ IH]; intros k pcs Hinv.
  - exists pcs. by rewrite Nat.add_0_r.
  - destruct (posting_step _ _ _ _ _ _ Hnd Hinv Hstep) as [pcs1 Hinv1].
    destruct (IH _ _ Hinv1) as [pcs' Hinv'].
    exists pcs'. by replace (k + S n)%nat with (S k + n)%nat by lia.
Qed.

Lemma posting_no_crash bs m0 n pcs c :
  posting bs m0 n pcs c → ¬ crashes c.
Proof.
  intros Hinv (i & t & msg & Hi & Hadv).
  destruct (posting_thread _ _ _ _ _ _ _ Hinv Hi) as (b & pc & Hb & Hpc & Hle & ->).
  destruct c as [[bk hw it [wr rd]] ths].
  destruct Hinv as [Hth Hlen Hbound Hsum Hit Hrd Hwr Hal Hwg Hst Hfr].
  simpl in *. subst it rd ths. unfold advance, critical in *.
  destruct pc as [|[|[|[|[|[|?]]]]]]; [| | | | | |lia]; simpl in Hadv.
  - destruct wr; discriminate.
  - destruct hw; [|discriminate].
    destruct (proj1 Hwg eq_refl) as [j Hj].
    assert (j = i) as ->; [eapply Hal; eauto; lia|]. congruence.
  - discriminate.
  - destruct wr; [discriminate|].
    assert (false = true); [|done]. apply Hwr. exists i, 3%nat. split; [done|lia].
  - discriminate.
  - discriminate.
Qed.

Lemma posting_finished bs m0 n pcs c :
  posting bs m0 n pcs c → finished c → pcs = replicate (length bs) 5%nat.
Proof.
  intros Hinv Hfin.
  apply list_eq_same_length with (length bs);
    [by rewrite length_replicate|by apply (posting_length _ _ _ _ _ Hinv)|].
  intros i pc pc' Hlt Hpc Hpc'. apply lookup_replicate in Hpc' as [-> _].
  destruct (lookup_lt_is_Some_2 bs i Hlt) as [b Hb].
  assert (Hi : threads c !! i = Some (thread_at b pc)).
  { rewrite (posting_threads _ _ _ _ _ Hinv).
    apply lookup_zip_with_Some. eauto. }
  assert (Hle := Forall_lookup_1 _ _ _ _ (posting_bound _ _ _ _ _ Hinv) Hpc).
  unfold finished in Hfin.
  assert (Hc := Forall_lookup_1 _ _ _ _ Hfin Hi). simpl in Hc, Hle.
  destruct pc as [|[|[|[|[|[|?]]]]]]; try discriminate; [done|lia].
Qed.

Lemma posting_progress bs m0 n pcs c :
  posting bs m0 n pcs c → finished c ∨ ∃ c', step c c'.
Proof.
  intros Hinv.
  destruct (decide (Forall (λ pc, pc = 5%nat) pcs)) as [Hall|Hsome].
  { left. unfold finished. rewrite (posting_threads _ _ _ _ _ Hinv).
    apply Forall_lookup. intros i t Hi.
    apply lookup_zip_with_Some in Hi as (b & pc & -> & Hb & Hpc).
    by rewrite (Forall_lookup_1 _ _ _ _ Hall Hpc). }
  right.
  assert (Hmove : ∀ i b pc t' σ',
            bs !! i = Some b → pcs !! i = Some pc →
            advance (thread_at b pc) (shared c) = Moved t' σ' → ∃ c', step c c').
  { intros i b pc t' σ' Hb Hpc Hadv. eexists.
    eapply (step_thread c i); [|exact Hadv].
    rewrite (posting_threads _ _ _ _ _ Hinv).
    apply lookup_zip_with_Some. eauto. }
  destruct c as [[bk hw it [wr rd]] ths].
  destruct Hinv as [Hth Hlen Hbound Hsum Hit Hrd Hwr Hal Hwg Hst Hfr].
  simpl in *. subst it rd ths. unfold critical in *.
  destruct wr.
  - destruct (proj1 Hwr eq_refl) as (i & pc & Hpc & Hc).
    destruct (lookup_lt_is_Some_2 bs i) as [b Hb];
      [rewrite <- Hlen; by eapply lookup_lt_Some|].
    destruct pc as [|[|[|[|?]]]]; try lia.
    + destruct hw.
      * destruct (proj1 Hwg eq_refl) as [j Hj].
        assert (j = i) as ->; [eapply Hal; eauto; lia|]. congruence.
      * by eapply (Hmove i b 1%nat).
    + by eapply (Hmove i b 2%nat).
    + by eapply (Hmove i b 3%nat).
  - apply not_Forall_Exists in Hsome; [|apply _].
    apply Exists_exists in Hsome as (pc & Hin & Hpc5). simpl in Hpc5.
    apply list_elem_of_lookup_1 in Hin as [i Hpc].
    destruct (lookup_lt_is_Some_2 bs i) as [b Hb];
      [rewrite <- Hlen; by eapply lookup_lt_Some|].
    assert (Hle := Forall_lookup_1 _ _ _ _ Hbound Hpc). simpl in Hle.
    assert (Hnc : ¬ (1 ≤ pc ≤ 3)%nat).
    { intros Hc. assert (false = true); [apply Hwr; eauto|done]. }
    destruct pc as [|[|[|[|[|[|?]]]]]]; try lia.
    + by eapply (Hmove i b 0%nat).
    + by eapply (Hmove i b 4%nat).
Qed.

Lemma posting_within bs m0 n pcs c :
  posting bs m0 n pcs c → (n ≤ 5 * length bs)%nat.
Proof.
  intros Hinv.
  rewrite <- (posting_count _ _ _ _ _ Hinv), <- (posting_length _ _ _ _ _ Hinv).
  apply sum_list_bound, (posting_bound _ _ _ _ _ Hinv).
Qed.

Lemma posting_completes bs m0 k n pcs c :
  NoDup (ID <$> bs) →
  (5 * length bs - n ≤ k)%nat →
  posting bs m0 n pcs c →
  ∃ c', rtc step c c' ∧ finished c'.
Proof.
  intros Hnd. revert n pcs c.
  induction k as [|k IH]; intros n pcs c Hk Hinv.
  all: destruct (posting_progress _ _ _ _ _ Hinv) as [Hfin|[c1 Hstep]];
    [exists c; split; [apply rtc_refl|done]|].
  all: destruct (posting_step _ _ _ _ _ _ Hnd Hinv Hstep) as [pcs1 Hinv1].
  all: assert (Hle := posting_within _ _ _ _ _ Hinv1).
  - lia.
  - destruct (IH (S n) pcs1 c1) as (c' & Hsteps & Hfin); [lia|done|].
    exists c'. split; [by eapply rtc_l|done].
Qed.

Lemma schedule_steps (sched : list nat) (c c' : Pool) :
  schedule sched c = Some c' → nsteps step (length sched) c c'.
Proof.
  revert c. induction sched as [|i sched IH]; intros c Hs; simpl in Hs.
  - simplify_eq. constructor.
  - destruct (threads c !! i) as [t|] eqn:Hi; [|done].
    destruct (advance t (shared c)) as [t' σ'| | | |] eqn:Hadv; try done.
    eapply nsteps_l; [by eapply step_thread|by apply IH].
Qed.


(** C10.  Requests that POST books with pairwise distinct identifiers, all
    served at the same time from a map at rest: however their actions
    interleave, no run ends in a fatal error of the runtime, no run is
    longer than five steps per request, a pool in which some handler has
    not returned can always take a step, and from every pool reached the
    run can be carried on until all handlers have returned.  When they
    have, every request has been answered 201 with an
    empty body, the mutex is free, each posted book is in the map under its
    identifier and is what a GET of /book/{identifier} then answers, and the
    keys nobody posted hold what they held. *)
Theorem concurrent_posts_all_land
    (rs : list Request) (bs : list Book) (m0 : gmap string Book)
    (n : nat) (c : Pool) :
  Forall2 (λ r b, authorized r ∧ Method r = "POST"
                  ∧ json_Decode (Body r) = inl b) rs bs →
  NoDup (ID <$> bs) →
  nsteps step n (mkPool (at_rest m0) (spawn (authenticate handleBooks) rs)) c →
  ¬ crashes c
  ∧ (n ≤ 5 * length rs)%nat
  ∧ (finished c ∨ ∃ c', step c c')
  ∧ (∃ c', rtc step c c' ∧ finished c')
  ∧ (finished c →
     n = (5 * length rs)%nat
     ∧ length (threads c) = length rs
     ∧ Forall (λ t, finish (out t) = mkResponse StatusCreated EmptyString)
              (threads c)
     ∧ ∃ m, shared c = at_rest m
          ∧ (∀ b, b ∈ bs → m !! ID b = Some b)
          ∧ (∀ k, k ∉ ID <$> bs → m !! k = m0 !! k)
          ∧ (∀ b g, b ∈ bs → authorized g → Method g = "GET" →
                    Path g = "/book/" ++ ID b →
                    serve (authenticate handleBook) g (at_rest m)
                    = Responded (mkResponse StatusOK
                                   (json.Marshal_Book b ++ newline))
                                (at_rest m))).
Proof.
  intros Hrs Hnd Hsteps.
  assert (Hlen : length rs = length bs) by by eapply Forall2_length.
  destruct (posting_steps _ _ _ _ _ _ _ Hnd (posting_initial rs bs m0 Hrs) Hsteps)
    as [pcs Hinv].
  simpl in Hinv. split_and!.
  - by eapply posting_no_crash.
  - rewrite Hlen. by eapply posting_within.
  - by eapply posting_progress.
  - by eapply (posting_completes bs m0 (5 * length bs)); [|lia|].
  - intros Hfin.
    assert (Hpcs := posting_finished _ _ _ _ _ Hinv Hfin).
    destruct c as [[bk hw it [wr rd]] ths].
    destruct Hinv as [Hth Hlen' Hbound Hsum Hit Hrd Hwr Hal Hwg Hst Hfr].
    simpl in *. subst it rd ths pcs.
    assert (Hstored : ∀ b, b ∈ bs → bk !! ID b = Some b).
    { intros b Hb. apply list_elem_of_lookup_1 in Hb as [i Hb].
      apply (Hst i b 5%nat); [done| |lia].
      apply lookup_replicate. split; [done|]. by eapply lookup_lt_Some. }
    split_and!.
    + rewrite <- Hsum, sum_list_replicate, Hlen. lia.
    + rewrite length_zip_with, length_replicate. lia.
    + apply Forall_lookup. intros i t Hi.
      apply lookup_zip_with_Some in Hi as (b & pc & -> & Hb & Hpc).
      apply lookup_replicate in Hpc as [-> _]. reflexivity.
    + exists bk. split_and!.
      * unfold at_rest, Go.unlocked. f_equal.
        -- destruct hw; [|done]. destruct (proj1 Hwg eq_refl) as [j Hj].
           apply lookup_replicate in Hj as [? _]. done.
        -- f_equal. destruct wr; [|done].
           destruct (proj1 Hwr eq_refl) as (j & pc & Hj & Hc).
           apply lookup_replicate in Hj as [-> _]. unfold critical in Hc. lia.
      * exact Hstored.
      * exact Hfr.
      * intros b g Hb Hg Hgm Hgp. rewrite serve_authorized by done.
        rewrite (handleBook_GET g (ID b)) by done. by rewrite (Hstored b Hb).
Qed.

End Parallel.

(** * Properties of any requests served at the same time *)

Section Orderly.
Context `{Platform}.

Lemma tally_insert (f : mode * nat → nat) (tags : list (mode * nat)) i x y :
  tags !! i = Some x →
  (tally f (<[i:=y]> tags) + f x = tally f tags + f y)%nat.
Proof.
  intros Hi. unfold tally. rewrite list_fmap_insert.
  assert (Hfi : (f <$> tags) !! i = Some (f x))
    by (by rewrite list_lookup_fmap, Hi).
  revert Hfi. generalize (f <$> tags) (f x) (f y). clear.
  intros l a b. revert i.
  induction l as [|z l IH]; intros [|i] Hi; simplify_eq/=; [lia|].
  specialize (IH i Hi). lia.
Qed.

Lemma tally_le (f g : mode * nat → nat) (tags : list (mode * nat)) :
  (∀ x, (f x ≤ g x)%nat) → (tally f tags ≤ tally g tags)%nat.
Proof.
  intros Hfg. unfold tally. induction tags as [|z tags IH]; csimpl; [lia|].
  specialize (Hfg z). lia.
Qed.

Lemma tally_positive (f : mode * nat → nat) (tags : list (mode * nat)) :
  tally f tags ≠ 0%nat → ∃ i x, tags !! i = Some x ∧ f x ≠ 0%nat.
Proof.
  unfold tally. induction tags as [|z tags IH]; csimpl; [done|].
  intros Hpos. destruct (decide (f z = 0%nat)) as [Hz|Hz].
  - destruct IH as (i & x & Hi & Hx); [lia|]. by exists (S i), x.
  - by exists 0%nat, z.
Qed.

Lemma b2n_le (b : bool) : (b2n b ≤ 1)%nat.
Proof. destruct b; simpl; lia. Qed.

Ltac keeps_discipline :=
  cbn; repeat first [done | by left | by right | split | intro; cbn].

Lemma handleBooks_disciplined (r : Request) :
  disciplined 6 Idle (authenticate handleBooks r).
Proof.
  unfold authenticate, handleBooks.
  destruct (decide (Get (Hdr r) "X-API-Key" ≠ "secret-key")) as [_|_];
    [keeps_discipline|].
  destruct (decide (Method r = "GET")) as [_|_]; [keeps_discipline; eauto|].
  destruct (decide (Method r = "POST")) as [_|_]; [|keeps_discipline].
  destruct (json_Decode (Body r)) as [book|err]; keeps_discipline.
Qed.

Lemma handleBook_disciplined (r : Request) :
  disciplined 6 Idle (authenticate handleBook r).
Proof.
  unfold authenticate, handleBook.
  destruct (decide (Get (Hdr r) "X-API-Key" ≠ "secret-key")) as [_|_];
    [keeps_discipline|].
  destruct (Go.str_from _ (Path r)) as [id|]; [|keeps_discipline].
  destruct (decide (Method r = "GET")) as [_|_].
  { keeps_discipline; eauto. destruct x; keeps_discipline. }
  destruct (decide (Method r = "PUT")) as [_|_].
  { destruct (json_Decode (Body r)) as [book|err]; keeps_discipline. }
  destruct (decide (Method r = "DELETE")) as [_|_]; keeps_discipline.
Qed.

Ltac retag_with f Htag y :=
  let Hf := fresh "Hf" in
  pose proof (tally_insert f _ _ _ y Htag) as Hf;
  cbn [as_reader as_ranger as_holder as_writer fst snd] in Hf.

Ltac retag Htag y :=
  retag_with as_reader Htag y; retag_with as_ranger Htag y;
  retag_with as_holder Htag y; retag_with as_writer Htag y;
  retag_with (@snd mode nat) Htag y.

Ltac count :=
  cbn [as_reader as_ranger as_holder as_writer fst snd] in *;
  unfold tally in *; lia.

Ltac moved Htag md' n' :=
  exists n'; split; [done|]; cbn [after]; retag Htag (md', n');
  split; simpl in *; try count; apply Forall2_insert; eauto.

Ltac stays Htag n' :=
  match type of Htag with _ = Some (?m, _) => moved Htag m n' end.

Lemma exec_orderly N tags c i {X} (e : Eff X) (k : X → prog unit) w md n :
  orderly N tags c →
  threads c !! i = Some (mkThread (Vis e k) w) →
  tags !! i = Some (md, n) →
  match exec e (shared c) w with
  | Done x σ' w' =>
      ∃ n', n = S n'
        ∧ orderly (pred N) (<[i:=(after e md, n')]> tags)
                  (mkPool σ' (<[i:=mkThread (k x) w']> (threads c)))
  | Wait => md = Idle ∧ (tally as_holder tags + tally as_reader tags)%nat ≠ 0%nat
  | Fatal _ => False
  end.
Proof.
  intros [Hth Hbud Hrd Hit Hho Hwr Hex] Hi Htag.
  assert (Hd := Forall2_lookup_lr _ _ _ _ _ _ Hth Hi Htag). simpl in Hd.
  retag Htag (Idle, 0%nat).
  pose proof (tally_le as_writer as_holder (<[i:=(Idle, 0%nat)]> tags)
                ltac:(intros [[] ?]; cbv; lia)).
  pose proof (tally_le as_ranger as_reader (<[i:=(Idle, 0%nat)]> tags)
                ltac:(intros [[] ?]; cbv; lia)).
  destruct c as [[bk hw it [wr rd]] ths]. simpl in *.
  pose proof (b2n_le wr). pose proof (b2n_le hw).
  fold (tally snd tags) in Hbud.
  destruct n as [|n']; [done|].
  destruct e; simpl in Hd |- *.
  - destruct Hd as [-> Hd]. destruct wr; simpl in *.
    + split; [done|count].
    + moved Htag Reading n'.
  - destruct Hd as [-> Hd]. destruct rd; simpl in *.
    + count.
    + moved Htag Released n'.
  - destruct Hd as [-> Hd]. destruct wr, rd; simpl in *.
    1,2,4: split; [done|count].
    moved Htag Holding n'.
  - destruct Hd as [-> Hd]. destruct wr; simpl in *.
    + moved Htag Released n'.
    + count.
  - destruct Hd as [[-> | ->] Hd]; stays Htag n'.
  - destruct Hd as [[-> | ->] Hd]; destruct hw; simpl in *; try count.
    all: stays Htag n'.
  - destruct Hd as [-> Hd]. destruct hw, it; simpl in *; try count.
    moved Htag Writing n'.
  - destruct Hd as [-> Hd]. moved Htag Holding n'.
  - destruct Hd as [-> Hd]. moved Htag Holding n'.
  - destruct Hd as [-> Hd]. destruct hw; simpl in *; try count.
    moved Htag Ranging n'.
  - destruct Hd as [-> Hd]. moved Htag Reading n'.
  - destruct md; stays Htag n'.
  - destruct md; stays Htag n'.
Qed.

Lemma advance_orderly N tags c i t md n :
  orderly N tags c → threads c !! i = Some t → tags !! i = Some (md, n) →
  match advance t (shared c) with
  | Moved t' σ' =>
      ∃ md' n', n = S n'
        ∧ orderly (pred N) (<[i:=(md', n')]> tags)
                  (mkPool σ' (<[i:=t']> (threads c)))
  | Waits => md = Idle ∧ (tally as_holder tags + tally as_reader tags)%nat ≠ 0%nat
  | Faults _ => False
  | Panics _ | Over => md = Idle ∨ md = Released
  end.
Proof.
  intros Hinv Hi Htag.
  assert (Hd := Forall2_lookup_lr _ _ _ _ _ _
                  (orderly_threads _ _ _ Hinv) Hi Htag). simpl in Hd.
  destruct t as [p w]. unfold advance. simpl in *.
  destruct p as [[]|msg|X e k]; [by destruct n|by destruct n|].
  pose proof (exec_orderly _ _ _ _ e k w _ _ Hinv Hi Htag) as Hcase.
  destruct (exec e (shared c) w) as [x σ' w'| |msg]; [|done|done].
  destruct Hcase as (n' & -> & Hinv'). eauto.
Qed.

Lemma tally_replicate (f : mode * nat → nat) (k : nat) (x : mode * nat) :
  tally f (replicate k x) = (k * f x)%nat.
Proof. unfold tally. by rewrite fmap_replicate, sum_list_replicate. Qed.

Lemma routes_disciplined (pat : string) (h : HandlerFunc) (r : Request) :
  (pat, h) ∈ routes → disciplined 6 Idle (h r).
Proof.
  unfold routes. intros Hin.
  apply elem_of_cons in Hin as [Heq|Hin].
  { injection Heq as _ ->. apply handleBooks_disciplined. }
  apply list_elem_of_singleton in Hin.
  injection Hin as _ ->. apply handleBook_disciplined.
Qed.

Lemma orderly_initial (hrs : list (HandlerFunc * Request)) (m0 : gmap string Book) :
  Forall (λ hr, ∃ pat, (pat, hr.1) ∈ routes) hrs →
  orderly (6 * length hrs) (replicate (length hrs) (Idle, 6%nat))
          (mkPool (at_rest m0) (spawn_all hrs)).
Proof.
  intros Hhrs. split.
  - cbn [threads]. unfold spawn_all.
    induction Hhrs as [|hr hrs [pat Hin] _ IH]; csimpl.
    + constructor.
    + constructor; [|exact IH]. cbn [code fst snd]. by eapply routes_disciplined.
  - rewrite fmap_replicate, sum_list_replicate. cbn [snd]. lia.
  - rewrite tally_replicate. cbn. lia.
  - rewrite tally_replicate. cbn. lia.
  - rewrite tally_replicate. cbn. lia.
  - rewrite tally_replicate. cbn. lia.
  - rewrite tally_replicate. left. cbn. lia.
Qed.

Lemma orderly_step N tags c c' :
  orderly N tags c → step c c' →
  ∃ tags', orderly (pred N) tags' c' ∧ N ≠ 0%nat.
Proof.
  intros Hinv Hstep. destruct Hstep as [c i t t' σ' Hi Hadv].
  destruct (Forall2_lookup_l _ _ _ _ _ (orderly_threads _ _ _ Hinv) Hi)
    as ([md n] & Htag & _).
  pose proof (advance_orderly _ _ _ _ _ _ _ Hinv Hi Htag) as Hcase.
  rewrite Hadv in Hcase. destruct Hcase as (md' & n' & -> & Hinv').
  exists (<[i:=(md', n')]> tags). split; [exact Hinv'|].
  pose proof (tally_insert snd _ _ _ (Idle, 0%nat) Htag) as Hsum.
  pose proof (orderly_budget _ _ _ Hinv). unfold tally in Hsum. simpl in Hsum. lia.
Qed.

Lemma orderly_steps N tags c n c' :
  orderly N tags c → nsteps step n c c' →
  ∃ tags', orderly (N - n) tags' c' ∧ (n ≤ N)%nat.
Proof.
  intros Hinv Hsteps. revert N tags Hinv.
  induction Hsteps as [c|n c c1 c' Hstep _ IH]; intros N tags Hinv.
  - exists tags. split; [by rewrite Nat.sub_0_r|lia].
  - destruct (orderly_step _ _ _ _ Hinv Hstep) as (tags1 & Hinv1 & HN).
    destruct (IH _ _ Hinv1) as (tags' & Hinv' & Hle).
    exists tags'. split; [|lia].
    by replace (N - S n)%nat with (pred N - n)%nat by lia.
Qed.

Lemma orderly_no_crash N tags c : orderly N tags c → ¬ crashes c.
Proof.
  intros Hinv (i & t & msg & Hi & Hadv).
  destruct (Forall2_lookup_l _ _ _ _ _ (orderly_threads _ _ _ Hinv) Hi)
    as ([md n] & Htag & _).
  pose proof (advance_orderly _ _ _ _ _ _ _ Hinv Hi Htag) as Hcase.
  by rewrite Hadv in Hcase.
Qed.

Lemma orderly_mode_idle N tags c i t md n :
  orderly N tags c → threads c !! i = Some t → tags !! i = Some (md, n) →
  (∀ t' σ', advance t (shared c) ≠ Moved t' σ') →
  md = Idle ∨ md = Released.
Proof.
  intros Hinv Hi Htag Hstuck.
  pose proof (advance_orderly _ _ _ _ _ _ _ Hinv Hi Htag) as Hcase.
  destruct (advance t (shared c)) as [t' σ'| | | |] eqn:Hadv;
    [by destruct (Hstuck t' σ')|left; by destruct Hcase|done|done|done].
Qed.

Lemma movable_dec (t : Thread) (σ : Shared) :
  {∀ t' σ', advance t σ ≠ Moved t' σ'} + {∃ t' σ', advance t σ = Moved t' σ'}.
Proof. destruct (advance t σ); [right; eauto|left; done..]. Qed.

Lemma orderly_tally_idle N tags c (f : mode * nat → nat) :
  orderly N tags c →
  (∀ t t' σ', t ∈ threads c → advance t (shared c) ≠ Moved t' σ') →
  (∀ md n, md = Idle ∨ md = Released → f (md, n) = 0%nat) →
  tally f tags = 0%nat.
Proof.
  intros Hinv Hstuck Hf.
  destruct (decide (tally f tags = 0%nat)) as [|Hpos]; [done|].
  apply tally_positive in Hpos as (i & [md n] & Htag & Hx).
  destruct (Forall2_lookup_r _ _ _ _ _ (orderly_threads _ _ _ Hinv) Htag)
    as (t & Hi & _).
  assert (Hmd : md = Idle ∨ md = Released).
  { eapply orderly_mode_idle; eauto.
    intros t' σ'. eapply Hstuck. by eapply list_elem_of_lookup_2. }
  by destruct (Hx (Hf md n Hmd)).
Qed.

Lemma orderly_progress N tags c :
  orderly N tags c → settled c ∨ ∃ c', step c c'.
Proof.
  intros Hinv.
  destruct (Forall_Exists_dec
              (λ t, ∀ t' σ', advance t (shared c) ≠ Moved t' σ')
              (λ t, ∃ t' σ', advance t (shared c) = Moved t' σ')
              (λ t, movable_dec t (shared c)) (threads c)) as [Hnone|Hsome].
  - left.
    assert (Hstuck : ∀ t t' σ', t ∈ threads c → advance t (shared c) ≠ Moved t' σ').
    { intros t t' σ' Hin. by apply (proj1 (Forall_forall _ _) Hnone t Hin). }
    pose proof (orderly_tally_idle _ _ _ as_holder Hinv Hstuck ltac:(by intros ? ? [-> | ->])) as Hh.
    pose proof (orderly_tally_idle _ _ _ as_reader Hinv Hstuck ltac:(by intros ? ? [-> | ->])) as Hr.
    apply Forall_lookup. intros i t Hi.
    destruct (Forall2_lookup_l _ _ _ _ _ (orderly_threads _ _ _ Hinv) Hi)
      as ([md n] & Htag & _).
    pose proof (advance_orderly _ _ _ _ _ _ _ Hinv Hi Htag) as Hcase.
    assert (Hin : t ∈ threads c) by by eapply list_elem_of_lookup_2.
    specialize (Hstuck t).
    unfold advance in *. destruct (code t) as [a|msg|X e k]; [done|done|].
    destruct (exec e (shared c) (out t)) as [x σ' w'| |msg].
    + by destruct (Hstuck _ _ Hin eq_refl).
    + destruct Hcase as [_ Hbusy]. lia.
    + done.
  - right. apply Exists_exists in Hsome as (t & Hin & t' & σ' & Hadv).
    apply list_elem_of_lookup_1 in Hin as [i Hi].
    eexists. by eapply step_thread.
Qed.

Lemma orderly_completes N tags c :
  orderly N tags c → ∃ c', rtc step c c' ∧ settled c'.
Proof.
  revert tags c. induction N as [|N IH]; intros tags c Hinv.
  all: destruct (orderly_progress _ _ _ Hinv) as [Hfin|[c1 Hstep]];
    [exists c; split; [apply rtc_refl|done]|].
  all: destruct (orderly_step _ _ _ _ Hinv Hstep) as (tags1 & Hinv1 & HN).
  - done.
  - destruct (IH _ _ Hinv1) as (c' & Hsteps & Hfin).
    exists c'. split; [by eapply rtc_l|done].
Qed.

Lemma orderly_settled N tags c :
  orderly N tags c → settled c → shared c = at_rest (books (shared c)).
Proof.
  intros Hinv Hfin.
  assert (Hstuck : ∀ t t' σ', t ∈ threads c → advance t (shared c) ≠ Moved t' σ').
  { intros t t' σ' Hin. unfold advance.
    pose proof (proj1 (Forall_forall _ _) Hfin t Hin) as Ht. simpl in Ht.
    by destruct (code t). }
  pose proof (orderly_tally_idle _ _ _ as_holder Hinv Hstuck ltac:(by intros ? ? [-> | ->])) as Hh.
  pose proof (orderly_tally_idle _ _ _ as_reader Hinv Hstuck ltac:(by intros ? ? [-> | ->])) as Hr.
  pose proof (orderly_tally_idle _ _ _ as_ranger Hinv Hstuck ltac:(by intros ? ? [-> | ->])) as Hg.
  pose proof (orderly_tally_idle _ _ _ as_writer Hinv Hstuck ltac:(by intros ? ? [-> | ->])) as Hw.
  destruct Hinv as [_ _ Hrd Hit Hho Hwr _].
  destruct c as [[bk hw it [wr rd]] ths]. simpl in *.
  unfold at_rest, Go.unlocked.
  destruct hw, wr; simpl in *; try lia.
  f_equal; [lia|]. f_equal. lia.
Qed.

(** X11.  Both registered handlers keep the locking discipline on every
    request, whatever its method, key, path and body: the map is read only
    between [RLock] and [RUnlock] or between [Lock] and [Unlock], written
    only between [Lock] and [Unlock], the mutex is never acquired twice and
    is released on every path before the handler returns, a panic happens
    only while nothing is held, and no handler takes more than six atomic
    actions. *)
Theorem routes_keep_discipline (pat : string) (h : HandlerFunc) (r : Request) :
  (pat, h) ∈ routes → disciplined 6 Idle (h r).
Proof.
  unfold routes. intros Hin.
  apply elem_of_cons in Hin as [Heq|Hin].
  - injection Heq as _ ->. apply handleBooks_disciplined.
  - apply list_elem_of_singleton in Hin. injection Hin as _ ->.
    apply handleBook_disciplined.
Qed.

(** X12.  Any requests, each on one of the registered routes, served at
    the same time from a map at rest: however their actions interleave, no
    run meets a fatal error of the runtime (no concurrent map access, no
    unlock of an unlocked mutex), no run is longer than six steps per
    request, a pool in which some handler is still running can always take
    a step (no deadlock), from every pool reached the run can be carried on
    until all handlers have returned or panicked, and then the mutex is
    free and no map operation is in progress. *)
Theorem any_requests_served_together
    (hrs : list (HandlerFunc * Request)) (m0 : gmap string Book)
    (n : nat) (c : Pool) :
  Forall (λ hr, ∃ pat, (pat, hr.1) ∈ routes) hrs →
  nsteps step n (mkPool (at_rest m0) (spawn_all hrs)) c →
  ¬ crashes c
  ∧ (n ≤ 6 * length hrs)%nat
  ∧ (settled c ∨ ∃ c', step c c')
  ∧ (∃ c', rtc step c c' ∧ settled c')
  ∧ (settled c → ∃ m, shared c = at_rest m).
Proof.
  intros Hhrs Hsteps.
  destruct (orderly_steps _ _ _ _ _ (orderly_initial hrs m0 Hhrs) Hsteps)
    as (tags & Hinv & Hle).
  split_and!.
  - by eapply orderly_no_crash.
  - exact Hle.
  - by eapply orderly_progress.
  - by eapply orderly_completes.
  - intros Hfin. eexists. by eapply orderly_settled.
Qed.

End Orderly.

(** * Requests served at the same time, against requests served in turn *)

Section Serial.
Context `{Platform}.

Lemma solo_exec {X} (e : Eff X) (k : X → prog unit) σ w x σ' w' :
  exec e σ w = Done x σ' w' →
  solo (Vis e k) w (books σ) = solo (k x) w' (books σ').
Proof.
  destruct σ as [bk hw it [wr rd]].
  destruct e; simpl; destruct wr, hw, rd, it; simpl; intros Hx;
    simplify_eq; reflexivity.
Qed.

Lemma exec_books {X} (e : Eff X) σ w x σ' w' :
  exec e σ w = Done x σ' w' →
  match e with
  | map_assign_commit _ _ | map_delete_commit _ => True
  | _ => books σ' = books σ
  end.
Proof.
  destruct σ as [bk hw it [wr rd]].
  destruct e; simpl; destruct wr, hw, rd, it; simpl; intros Hx;
    simplify_eq; done.
Qed.

Lemma solo_exec_outside n md {X} (e : Eff X) (k : X → prog unit) σ w x σ' w' :
  disciplined (S n) md (Vis e k) → md = Idle ∨ md = Released →
  exec e σ w = Done x σ' w' →
  ∀ m, solo (Vis e k) w m = solo (k x) w' m.
Proof.
  intros Hd Hmd Hx m. destruct σ as [bk hw it [wr rd]].
  destruct e; simpl in Hd, Hx |- *;
    try (destruct Hd as [Hd _]; destruct Hmd as [-> | ->];
         first [discriminate | by destruct Hd]);
    destruct wr, hw, rd, it; simpl in Hx; simplify_eq; reflexivity.
Qed.

Lemma released_solo n p w m m' :
  disciplined n Released p →
  (solo p w m).1 = (solo p w m').1 ∧ (solo p w m).2 = m.
Proof.
  revert p w. induction n as [|n IH]; intros p w Hd;
    destruct p as [a|msg|X e k]; simpl in *; try done.
  destruct e; simpl in Hd |- *;
    try (destruct Hd as [Hd _]; first [discriminate | by destruct Hd]);
    by apply IH.
Qed.

Lemma reading_solo n md p w m :
  disciplined n md p → md = Reading ∨ md = Ranging →
  (solo p w m).2 = m.
Proof.
  revert md p w. induction n as [|n IH]; intros md p w Hd Hmd;
    destruct p as [a|msg|X e k]; simpl in *;
    try (destruct Hmd as [-> | ->]; by destruct Hd).
  destruct e; simpl in Hd |- *.
  all: try (destruct Hd as [-> Hd]; destruct Hmd; try discriminate).
  all: try (destruct Hd as [[-> | ->] Hd]; destruct Hmd; try discriminate).
  all: try (eapply IH; eauto; fail).
  all: try (by eapply released_solo).
Qed.

Lemma solo_run n md p w m :
  disciplined n md p →
  run p (alone_in md m) w
  = match solo p w m with
    | (Answered w', m') => Returned tt (at_rest m') w'
    | (Paniced msg, m') => Panicked msg (at_rest m')
    end.
Proof.
  revert md p w m. induction n as [|n IH]; intros md p w m Hd;
    destruct p as [[]|msg|X e k]; simpl in Hd; try done.
  1-4: by destruct Hd as [-> | ->].
  destruct e; simpl in Hd |- *.
  - destruct Hd as [-> Hd]. apply (IH Reading _ _ _ Hd).
  - destruct Hd as [-> Hd]. apply (IH Released _ _ _ Hd).
  - destruct Hd as [-> Hd]. apply (IH Holding _ _ _ Hd).
  - destruct Hd as [-> Hd]. apply (IH Released _ _ _ Hd).
  - destruct Hd as [[-> | ->] Hd]; simpl.
    + apply (IH Reading _ _ _ (Hd _)).
    + apply (IH Holding _ _ _ (Hd _)).
  - destruct Hd as [[-> | ->] Hd]; simpl.
    + apply (IH Reading _ _ _ (Hd _)).
    + apply (IH Holding _ _ _ (Hd _)).
  - destruct Hd as [-> Hd]. apply (IH Writing _ _ _ Hd).
  - destruct Hd as [-> Hd]. apply (IH Holding _ _ _ Hd).
  - destruct Hd as [-> Hd]. apply (IH Holding _ _ _ Hd).
  - destruct Hd as [-> Hd]. apply (IH Ranging _ _ _ (Hd _)).
  - destruct Hd as [-> Hd]. apply (IH Reading _ _ _ Hd).
  - destruct md; apply (IH _ _ _ _ Hd).
  - destruct md; apply (IH _ _ _ _ Hd).
Qed.

Lemma serve_solo n (h : HandlerFunc) (r : Request) (m : gmap string Book) :
  disciplined n Idle (h r) →
  serve h r (at_rest m)
  = match solo (h r) fresh m with
    | (Answered w', m') => Responded (finish w') (at_rest m')
    | (Paniced msg, m') => Aborted msg (at_rest m')
    end.
Proof.
  intros Hd. unfold serve. change (at_rest m) with (alone_in Idle m).
  rewrite (solo_run n Idle (h r) fresh m Hd).
  by destruct (solo (h r) fresh m) as [[w'|msg] m'].
Qed.

Lemma tally_member (f : mode * nat → nat) (tags : list (mode * nat)) i x :
  tags !! i = Some x → (f x ≤ tally f tags)%nat.
Proof.
  unfold tally. revert i.
  induction tags as [|z tags IH]; intros [|i] Hi; simplify_eq/=; csimpl.
  - lia.
  - specialize (IH i Hi). lia.
Qed.

Lemma tally_members (f : mode * nat → nat) (tags : list (mode * nat)) i j x y :
  i ≠ j → tags !! i = Some x → tags !! j = Some y →
  (f x + f y ≤ tally f tags)%nat.
Proof.
  unfold tally. revert i j.
  induction tags as [|z tags IH]; intros [|i] [|j] Hne Hi Hj;
    simplify_eq/=; csimpl.
  - pose proof (tally_member f tags j y Hj). unfold tally in *. lia.
  - pose proof (tally_member f tags i x Hi). unfold tally in *. lia.
  - assert (i ≠ j) by congruence. specialize (IH i j ltac:(done) Hi Hj). lia.
Qed.

Lemma holder_is_alone N tags c i j mdi ni mdj nj :
  orderly N tags c → i ≠ j →
  tags !! i = Some (mdi, ni) → mdi = Holding ∨ mdi = Writing →
  tags !! j = Some (mdj, nj) → inside mdj → False.
Proof.
  intros Hinv Hne Hi Hmdi Hj Hmdj.
  pose proof (tally_members as_holder tags i j _ _ Hne Hi Hj) as Hhh.
  pose proof (tally_member as_holder tags i _ Hi) as Hh.
  pose proof (tally_member as_reader tags j _ Hj) as Hr.
  pose proof (b2n_le (Go.writer (mux (shared c)))) as Hb.
  rewrite (orderly_holder _ _ _ Hinv) in Hb.
  pose proof (orderly_exclusive _ _ _ Hinv) as Hex.
  unfold inside in Hmdj.
  destruct Hmdi as [-> | ->]; destruct Hmdj as [-> | [-> | [-> | ->]]];
    cbn [as_holder as_reader fst] in *; lia.
Qed.

Lemma chained_snoc hrs hist m0 V i :
  chained hrs hist m0 V →
  chained hrs (hist ++ [(i, V)]) m0 (next_map hrs V i).
Proof.
  revert m0. induction hist as [|ib hist IH]; simpl; intros m0.
  - by intros ->.
  - intros [Hb Hc]. split; [done|]. by apply IH.
Qed.

Lemma accounted_other hrs hist hist' V V' σ σ' j t md :
  accounted hrs hist V σ j t md →
  (∀ x, x ∈ hist → x ∈ hist') →
  (j ∉ hist.*1 → j ∉ hist'.*1) →
  (inside md → books σ' = books σ ∧ V' = V) →
  accounted hrs hist' V' σ' j t md.
Proof.
  intros (hr & Hhr & Hacc) Hsub Hout Hin. exists hr. split; [done|].
  unfold inside in Hin.
  destruct md; try (destruct Hin as [-> ->]; [by eauto|];
                    destruct Hacc; split; eauto).
  - destruct Hacc; split; eauto.
  - destruct Hacc as (b & Hb & Hacc). eauto.
Qed.

Lemma inside_accounted hrs hist V σ i t md hr :
  inside md → hrs !! i = Some hr →
  solo (code t) (out t) (books σ) = solo (hr.1 hr.2) fresh V →
  i ∉ hist.*1 →
  accounted hrs hist V σ i t md.
Proof.
  intros Hin Hhr Hs Hout. exists hr. split; [done|].
  by destruct Hin as [-> | [-> | [-> | ->]]].
Qed.

(** What one action of a thread in mode [md] can be, as far as the
    accounting goes. *)
Lemma action_cases N tags c i {X} (e : Eff X) (k : X → prog unit)
    w md n x σ1 w' :
  orderly N tags c →
  tags !! i = Some (md, S n) →
  disciplined (S n) md (Vis e k) →
  exec e (shared c) w = Done x σ1 w' →
  (md ≠ Writing → books σ1 = books (shared c))
  ∧ (if releases e
     then (md = Reading ∨ md = Holding) ∧ after e md = Released
     else match md with
          | Idle =>
              after e md = Idle
              ∨ (inside (after e md) ∧ tally as_holder tags = 0%nat)
          | Released => after e md = Released
          | _ => inside (after e md)
                 ∧ as_holder (after e md, n) = as_holder (md, S n)
          end).
Proof.
  intros Hord Htag Hd Hx.
  pose proof (orderly_holder _ _ _ Hord) as Hho.
  pose proof (exec_books e _ _ _ _ _ Hx) as Hbk.
  destruct c as [[bk hw it [wr rd]] ths]. unfold inside. simpl in *.
  destruct e; simpl in Hd, Hx, Hbk |- *.
  - destruct Hd as [-> _]. split; [done|]. right.
    destruct wr; simplify_eq/=. split; [by left|done].
  - destruct Hd as [-> _]. split; [done|]. split; [by left|done].
  - destruct Hd as [-> _]. split; [done|]. right.
    destruct wr, rd; simplify_eq/=. split; [by right; right; left|done].
  - destruct Hd as [-> _]. split; [done|]. split; [by right|done].
  - destruct Hd as [[-> | ->] _]; split; try done;
      split; [by left|done|by right; right; left|done].
  - destruct Hd as [[-> | ->] _]; split; try done;
      split; [by left|done|by right; right; left|done].
  - destruct Hd as [-> _]. split; [done|]. split; [by right; right; right|done].
  - destruct Hd as [-> _]. split; [done|]. split; [by right; right; left|done].
  - destruct Hd as [-> _]. split; [done|]. split; [by right; right; left|done].
  - destruct Hd as [-> _]. split; [done|]. split; [by right; left|done].
  - destruct Hd as [-> _]. split; [done|]. split; [by left|done].
  - split; [done|]. destruct md; try (by left); try done;
      split; try done; tauto.
  - split; [done|]. destruct md; try (by left); try done;
      split; try done; tauto.
Qed.

Lemma serial_step hrs m0 N tags hist V c c' :
  serial_so_far hrs m0 N tags hist V c → step c c' →
  ∃ tags' hist' V', serial_so_far hrs m0 (pred N) tags' hist' V' c'.
Proof.
  intros Hinv Hstep. destruct Hstep as [c i t t' σ' Hi Hadv].
  destruct Hinv as [Hord Hacc Hch Hview Honce Hrel].
  destruct (Forall2_lookup_l _ _ _ _ _ (orderly_threads _ _ _ Hord) Hi)
    as ([md n] & Htag & Hd). simpl in Hd.
  destruct t as [p w]. unfold advance in Hadv. simpl in Hadv.
  destruct p as [a|msg|X e k]; [done|done|].
  destruct (exec e (shared c) w) as [x σ1 w'| |msg] eqn:Hx; [|done|done].
  injection Hadv as <- <-.
  pose proof (exec_orderly _ _ _ _ e k w _ _ Hord Hi Htag) as Hnext.
  rewrite Hx in Hnext. destruct Hnext as (n' & -> & Hord').
  destruct (Hacc _ _ _ _ Hi Htag) as (hr & Hhr & Hmine). cbn [code out] in Hmine.
  assert (Hlt : (i < length (threads c))%nat) by by eapply lookup_lt_Some.
  assert (Hlt' : (i < length tags)%nat) by by eapply lookup_lt_Some.
  assert (Hd' : disciplined n' (after e md) (k x)).
  { apply (Forall2_lookup_lr _ _ _ i (mkThread (k x) w') (after e md, n')
             (orderly_threads _ _ _ Hord'));
      simpl; by apply list_lookup_insert_eq. }
  pose proof (solo_exec e k _ _ _ _ _ Hx) as Hsolo.
  destruct (action_cases _ _ _ _ e k w md n' x σ1 w' Hord Htag Hd Hx)
    as [Hbk Hcase].
  assert (Halone : md = Holding ∨ md = Writing →
            ∀ j mdj nj, j ≠ i → tags !! j = Some (mdj, nj) → inside mdj → False).
  { intros Hmd j mdj nj Hne Hj Hin.
    eapply (holder_is_alone _ _ _ i j _ _ _ _ Hord);
      [congruence|exact Htag|exact Hmd|exact Hj|exact Hin]. }
  assert (Hreader : md = Reading ∨ md = Ranging → books (shared c) = V).
  { intros Hmd. apply Hview.
    pose proof (tally_member as_reader tags i _ Htag) as Hr.
    destruct (orderly_exclusive _ _ _ Hord) as [Hz|Hz]; [done|].
    destruct Hmd as [-> | ->]; cbn [as_reader fst] in Hr; lia. }
  pose proof (tally_insert as_holder _ _ _ (after e md, n') Htag) as Hcount.
  pose proof (tally_member as_holder (<[i:=(after e md, n')]> tags) i
                (after e md, n') ltac:(by apply list_lookup_insert_eq)) as Hmem.
  destruct (releases e) eqn:Hrls.
  - (* the thread gives the mutex back *)
    destruct Hcase as [Hmd Hafter]. rewrite Hafter in *.
    assert (Hinside : inside md) by (destruct Hmd as [-> | ->]; unfold inside; tauto).
    assert (Hmine' : solo (Vis e k) w (books (shared c)) = solo (hr.1 hr.2) fresh V
                     ∧ i ∉ hist.*1).
    { by destruct Hmd as [-> | ->]. }
    destruct Hmine' as [Hsame Hnew].
    assert (Hbooks : books σ1 = books (shared c)).
    { apply Hbk. by destruct Hmd as [-> | ->]. }
    assert (Hnext : next_map hrs V i = books σ1).
    { unfold next_map. rewrite Hhr, <- Hsame, Hsolo.
      apply (released_solo n' (k x) w' (books σ1) (books σ1) Hd'). }
    exists (<[i:=(Released, n')]> tags), (hist ++ [(i, V)])%list,
      (next_map hrs V i).
    split.
    + exact Hord'.
    + intros j tj mdj nj Hj Htagj. simpl in Hj |- *.
      destruct (decide (j = i)) as [->|Hne].
      * rewrite list_lookup_insert_eq in Hj by done.
        rewrite list_lookup_insert_eq in Htagj by done.
        injection Hj as <-. injection Htagj as <- <-.
        exists hr. split; [done|]. exists V.
        split; [apply elem_of_app; right; apply list_elem_of_here|].
        intros m. cbn [code out].
        destruct (released_solo n' (k x) w' m (books σ1) Hd') as [H1 H2].
        rewrite <- Hsame, Hsolo.
        destruct (solo (k x) w' m) as [v1 m1]. simpl in *. by subst.
      * rewrite list_lookup_insert_ne in Hj by done.
        rewrite list_lookup_insert_ne in Htagj by done.
        eapply accounted_other; [by eapply Hacc| | |].
        -- intros ? ?. apply elem_of_app. by left.
        -- rewrite fmap_app. intros Hout Hin.
           apply elem_of_app in Hin as [Hin|Hin]; [done|].
           apply list_elem_of_singleton in Hin. simpl in Hin. congruence.
        -- intros Hin. split; [done|].
           destruct Hmd as [-> | ->].
           ++ rewrite Hnext, Hbooks. apply Hreader. by left.
           ++ destruct (Halone ltac:(by left) j mdj nj Hne Htagj Hin).
    + by apply chained_snoc.
    + intros _. simpl. by rewrite Hnext.
    + rewrite fmap_app. apply NoDup_app. split_and!; [done| |].
      * intros j Hj Hji. apply list_elem_of_singleton in Hji. simpl in Hji.
        by subst.
      * apply NoDup_singleton.
    + intros j b Hjb. apply elem_of_app in Hjb as [Hjb|Hjb].
      * destruct (Hrel _ _ Hjb) as [nj Hj].
        assert (j ≠ i).
        { intros ->. apply Hnew. apply list_elem_of_fmap. by exists (i, b). }
        exists nj. by rewrite list_lookup_insert_ne.
      * apply list_elem_of_singleton in Hjb. simplify_eq.
        exists n'. by apply list_lookup_insert_eq.
  - (* any other action *)
    exists (<[i:=(after e md, n')]> tags), hist, V.
    assert (Hothers : ∀ j tj mdj nj, j ≠ i →
              threads c !! j = Some tj → tags !! j = Some (mdj, nj) →
              accounted hrs hist V σ1 j tj mdj).
    { intros j tj mdj nj Hne Hj Htagj.
      eapply accounted_other; [by eapply Hacc|done|done|].
      intros Hin. split; [|done]. apply Hbk. intros ->.
      destruct (Halone ltac:(by right) j mdj nj Hne Htagj Hin). }
    split.
    + exact Hord'.
    + intros j tj mdj nj Hj Htagj. simpl in Hj |- *.
      destruct (decide (j = i)) as [->|Hne];
        [|rewrite list_lookup_insert_ne in Hj by done;
          rewrite list_lookup_insert_ne in Htagj by done; by eapply Hothers].
      rewrite list_lookup_insert_eq in Hj by done.
      rewrite list_lookup_insert_eq in Htagj by done.
      injection Hj as <-. injection Htagj as <- <-.
      assert (Hout : md = Idle ∨ md = Released →
                ∀ m, solo (Vis e k) w m = solo (k x) w' m).
      { intros Hmd. by eapply (solo_exec_outside n' md e k). }
      destruct md.
      * destruct Hmine as [Hall Hnew].
        destruct Hcase as [Hafter|[Hin Hfree]].
        -- rewrite Hafter. exists hr. split; [done|]. split; [|done].
           intros m. cbn [code out]. rewrite <- (Hout ltac:(by left)).
           apply Hall.
        -- apply (inside_accounted _ _ _ _ _ _ _ hr Hin Hhr); [|done].
           cbn [code out]. rewrite <- Hsolo, Hall. by rewrite (Hview Hfree).
      * destruct Hmine as [Hsame Hnew]. destruct Hcase as [Hin _].
        apply (inside_accounted _ _ _ _ _ _ _ hr Hin Hhr); [|done].
        cbn [code out]. by rewrite <- Hsolo.
      * destruct Hmine as [Hsame Hnew]. destruct Hcase as [Hin _].
        apply (inside_accounted _ _ _ _ _ _ _ hr Hin Hhr); [|done].
        cbn [code out]. by rewrite <- Hsolo.
      * destruct Hmine as [Hsame Hnew]. destruct Hcase as [Hin _].
        apply (inside_accounted _ _ _ _ _ _ _ hr Hin Hhr); [|done].
        cbn [code out]. by rewrite <- Hsolo.
      * destruct Hmine as [Hsame Hnew]. destruct Hcase as [Hin _].
        apply (inside_accounted _ _ _ _ _ _ _ hr Hin Hhr); [|done].
        cbn [code out]. by rewrite <- Hsolo.
      * destruct Hmine as (b & Hb & Hall). rewrite Hcase.
        exists hr. split; [done|]. exists b. split; [done|].
        intros m. cbn [code out]. rewrite <- (Hout ltac:(by right)).
        apply Hall.
    + exact Hch.
    + simpl. intros Hz. rewrite Hz in Hmem.
      assert (Hquiet : as_holder (md, S n') = 0%nat → books σ1 = V).
      { intros Hmd0. rewrite Hbk by (by intros ->).
        apply Hview. lia. }
      destruct md; try (by apply Hquiet).
      all: destruct Hcase as [_ Hsame]; rewrite Hsame in Hmem;
        cbn [as_holder fst] in Hmem; lia.
    + exact Honce.
    + intros j b Hjb. destruct (Hrel _ _ Hjb) as [nj Hj].
      destruct (decide (j = i)) as [->|Hne];
        [|exists nj; by rewrite list_lookup_insert_ne].
      rewrite Htag in Hj. injection Hj as -> _.
      rewrite Hcase. exists n'. by apply list_lookup_insert_eq.
Qed.

Lemma serial_initial (hrs : list (HandlerFunc * Request)) (m0 : gmap string Book) :
  Forall (λ hr, ∃ pat, (pat, hr.1) ∈ routes) hrs →
  serial_so_far hrs m0 (6 * length hrs) (replicate (length hrs) (Idle, 6%nat))
                [] m0 (mkPool (at_rest m0) (spawn_all hrs)).
Proof.
  intros Hhrs. split; simpl; try done.
  - by apply orderly_initial.
  - intros i t md n Hi Htag.
    apply lookup_replicate in Htag as [Htag _]. injection Htag as -> ->.
    unfold spawn_all in Hi. rewrite list_lookup_fmap in Hi.
    destruct (hrs !! i) as [hr|] eqn:Hhr; [|done]. injection Hi as <-.
    exists hr. split; [done|]. split; [done|]. apply not_elem_of_nil.
  - apply NoDup_nil_2.
  - intros i b Hib. by apply elem_of_nil in Hib.
Qed.

Lemma serial_steps hrs m0 N tags hist V c n c' :
  serial_so_far hrs m0 N tags hist V c → nsteps step n c c' →
  ∃ N' tags' hist' V', serial_so_far hrs m0 N' tags' hist' V' c'.
Proof.
  intros Hinv Hsteps. revert N tags hist V Hinv.
  induction Hsteps as [c|n c c1 c' Hstep _ IH]; intros N tags hist V Hinv.
  - eauto.
  - destruct (serial_step _ _ _ _ _ _ _ _ Hinv Hstep)
      as (tags1 & hist1 & V1 & Hinv1).
    by eapply IH.
Qed.

Lemma in_turn_app hrs (l1 l2 : list nat) (m : gmap string Book) :
  in_turn hrs (l1 ++ l2) m
  = (((in_turn hrs l1 m).1 ++ (in_turn hrs l2 (in_turn hrs l1 m).2).1)%list,
     (in_turn hrs l2 (in_turn hrs l1 m).2).2).
Proof.
  revert m. induction l1 as [|i l1 IH]; intros m; simpl.
  - by destruct (in_turn hrs l2 m).
  - destruct (hrs !! i) as [hr|]; [|apply IH]. by rewrite IH.
Qed.

Lemma serve_seen n (h : HandlerFunc) (r : Request) (m : gmap string Book) :
  disciplined n Idle (h r) →
  seen_of_served (serve h r (at_rest m))
  = seen_of_verdict (solo (h r) fresh m).1
  ∧ map_after (serve h r (at_rest m)) m = (solo (h r) fresh m).2.
Proof.
  intros Hd. rewrite (serve_solo n h r m Hd).
  by destruct (solo (h r) fresh m) as [[w'|msg] m'].
Qed.

(** Serving the requests of a history in turn walks through the maps the
    history recorded. *)
Lemma in_turn_history hrs hist m V :
  Forall (λ hr, ∃ pat, (pat, hr.1) ∈ routes) hrs →
  (∀ i b, (i, b) ∈ hist → is_Some (hrs !! i)) →
  chained hrs hist m V →
  (in_turn hrs hist.*1 m).2 = V
  ∧ (in_turn hrs hist.*1 m).1
    = (λ ib, (ib.1, match hrs !! ib.1 with
                    | Some hr => seen_of_verdict (solo (hr.1 hr.2) fresh ib.2).1
                    | None => Nothing
                    end)) <$> hist.
Proof.
  intros Hhrs. revert m. induction hist as [|[i b] hist IH]; intros m Hin Hch.
  - simpl in *. by subst.
  - destruct Hch as [Hb Hch]. simpl in Hb. subst b. csimpl.
    destruct (Hin i m ltac:(apply list_elem_of_here)) as [hr Hhr].
    rewrite Hhr. simpl.
    destruct (proj1 (Forall_lookup _ _) Hhrs i hr Hhr) as [pat Hroute].
    destruct (serve_seen 6 hr.1 hr.2 m (routes_disciplined _ _ _ Hroute))
      as [Hseen Hmap].
    rewrite Hseen, Hmap.
    unfold next_map in Hch. simpl in Hch. rewrite Hhr in Hch.
    destruct (IH _ (λ j b' Hjb, Hin j b' (list_elem_of_further _ _ _ Hjb)) Hch)
      as [IH2 IH1].
    split; [exact IH2|]. by rewrite IH1.
Qed.

(** Serving in turn requests whose threads never took the mutex leaves the
    map alone and gives what the threads show. *)
Lemma in_turn_idle hrs c (l : list nat) (m : gmap string Book) :
  Forall (λ hr, ∃ pat, (pat, hr.1) ∈ routes) hrs →
  settled c →
  (∀ i, i ∈ l → ∃ hr t, hrs !! i = Some hr ∧ threads c !! i = Some t
                 ∧ ∀ m', solo (code t) (out t) m' = solo (hr.1 hr.2) fresh m') →
  (in_turn hrs l m).2 = m
  ∧ (in_turn hrs l m).1.*1 = l
  ∧ Forall (shown c) (in_turn hrs l m).1.
Proof.
  intros Hhrs Hfin. induction l as [|i l IH]; intros Hl; simpl.
  - split_and!; [done|done|constructor].
  - destruct (Hl i ltac:(apply list_elem_of_here)) as (hr & t & Hhr & Hi & Hsolo).
    rewrite Hhr. simpl.
    destruct (proj1 (Forall_lookup _ _) Hhrs i hr Hhr) as [pat Hroute].
    destruct (serve_seen 6 hr.1 hr.2 m (routes_disciplined _ _ _ Hroute))
      as [Hseen Hmap].
    rewrite Hseen, Hmap, <- Hsolo.
    pose proof (proj1 (Forall_lookup _ _) Hfin i t Hi) as Ht. simpl in Ht.
    assert (Hsame : (solo (code t) (out t) m).2 = m
                    ∧ seen_of_verdict (solo (code t) (out t) m).1
                      = seen_of_thread t).
    { unfold seen_of_thread. by destruct (code t). }
    destruct Hsame as [-> ->].
    destruct (IH (λ j Hj, Hl j (list_elem_of_further _ _ _ Hj)))
      as (IH1 & IH2 & IH3).
    split_and!.
    + done.
    + simpl. f_equal. exact IH2.
    + constructor; [|done]. by exists t.
Qed.

Lemma fst_unique {A B} (l : list (A * B)) (a : A) (b b' : B) :
  NoDup l.*1 → (a, b) ∈ l → (a, b') ∈ l → b = b'.
Proof.
  induction l as [|[a0 b0] l IH]; csimpl; intros Hnd Hb Hb'.
  - by apply elem_of_nil in Hb.
  - apply NoDup_cons in Hnd as [Hout Hnd].
    apply elem_of_cons in Hb as [Hb|Hb]; apply elem_of_cons in Hb' as [Hb'|Hb'].
    + congruence.
    + injection Hb as -> ->. destruct Hout.
      apply list_elem_of_fmap. by exists (a0, b').
    + injection Hb' as -> ->. destruct Hout.
      apply list_elem_of_fmap. by exists (a0, b).
    + by apply IH.
Qed.

Lemma step_threads_length (c c' : Pool) :
  step c c' → length (threads c') = length (threads c).
Proof. intros [c0 i t t' σ' Hi Hadv]. simpl. by rewrite length_insert. Qed.

Lemma steps_threads_length n (c c' : Pool) :
  nsteps step n c c' → length (threads c') = length (threads c).
Proof.
  induction 1 as [|n c c1 c' Hstep _ IH]; [done|].
  by rewrite IH, (step_threads_length _ _ Hstep).
Qed.

(** X14.  Any requests on the registered routes served at the same time
    from a map at rest: when all handlers have returned or panicked, there
    is an order of the requests in which serving them one at a time, each
    alone, gives every client the answer it got in the concurrent run (or
    the same panic) and leaves the same map. *)
Theorem concurrent_runs_are_serial
    (hrs : list (HandlerFunc * Request)) (m0 : gmap string Book)
    (n : nat) (c : Pool) :
  Forall (λ hr, ∃ pat, (pat, hr.1) ∈ routes) hrs →
  nsteps step n (mkPool (at_rest m0) (spawn_all hrs)) c →
  settled c →
  ∃ order : list nat,
    order ≡ₚ seq 0 (length hrs)
    ∧ (in_turn hrs order m0).2 = books (shared c)
    ∧ (in_turn hrs order m0).1.*1 = order
    ∧ Forall (shown c) (in_turn hrs order m0).1.
Proof.
  intros Hhrs Hsteps Hfin.
  destruct (serial_steps _ _ _ _ _ _ _ _ _ (serial_initial hrs m0 Hhrs) Hsteps)
    as (N & tags & hist & V & [Hord Hacc Hch Hview Honce Hrel]).
  assert (Hlen : length (threads c) = length hrs).
  { rewrite (steps_threads_length _ _ _ Hsteps). simpl.
    unfold spawn_all. by rewrite length_fmap. }
  assert (Hlen' : length tags = length hrs).
  { rewrite <- Hlen. symmetry.
    by eapply Forall2_length, orderly_threads. }
  assert (Hstuck : ∀ t t' σ', t ∈ threads c → advance t (shared c) ≠ Moved t' σ').
  { intros t t' σ' Hin. unfold advance.
    pose proof (proj1 (Forall_forall _ _) Hfin t Hin) as Ht. simpl in Ht.
    by destruct (code t). }
  assert (Hthread : ∀ i md k, tags !! i = Some (md, k) →
            ∃ t, threads c !! i = Some t
               ∧ match code t with Vis _ _ => False | _ => True end
               ∧ (md = Idle ∨ md = Released)
               ∧ accounted hrs hist V (shared c) i t md).
  { intros i md k Htag.
    destruct (Forall2_lookup_r _ _ _ _ _ (orderly_threads _ _ _ Hord) Htag)
      as (t & Hi & _).
    exists t. split_and!; [done| | |by eapply Hacc].
    - apply (proj1 (Forall_lookup _ _) Hfin i t Hi).
    - eapply orderly_mode_idle; eauto.
      intros t' σ'. apply Hstuck. by eapply list_elem_of_lookup_2. }
  assert (HV : books (shared c) = V).
  { apply Hview.
    apply (orderly_tally_idle _ _ _ as_holder Hord Hstuck).
    by intros ? ? [-> | ->]. }
  assert (Hhist : ∀ i b, (i, b) ∈ hist →
            ∃ hr t, hrs !! i = Some hr ∧ threads c !! i = Some t
                  ∧ seen_of_verdict (solo (hr.1 hr.2) fresh b).1
                    = seen_of_thread t).
  { intros i b Hib. destruct (Hrel _ _ Hib) as [k Htag].
    destruct (Hthread _ _ _ Htag) as (t & Hi & Ht & _ & hr & Hhr & b' & Hib' & Hs).
    exists hr, t. split_and!; [done|done|].
    rewrite (fst_unique hist i b b' Honce Hib Hib').
    specialize (Hs ∅). unfold seen_of_thread.
    destruct (code t); simpl in Hs; [by injection Hs as <-..|done]. }
  set (idle := λ i : nat, fst <$> tags !! i = Some Idle).
  set (idles := filter idle (seq 0 (length hrs))).
  assert (Hidles : ∀ i, i ∈ idles →
            ∃ hr t, hrs !! i = Some hr ∧ threads c !! i = Some t
              ∧ ∀ m', solo (code t) (out t) m' = solo (hr.1 hr.2) fresh m').
  { intros i Hi. apply list_elem_of_filter in Hi as [Hi _]. unfold idle in Hi.
    destruct (tags !! i) as [[md k]|] eqn:Htag; [|done].
    simpl in Hi. injection Hi as ->.
    destruct (Hthread _ _ _ Htag) as (t & Hi & _ & _ & hr & Hhr & Hs & _).
    by exists hr, t. }
  destruct (in_turn_history hrs hist m0 V Hhrs) as [Hmap Hout]; [|done|].
  { intros i b Hib. destruct (Hhist _ _ Hib) as (hr & _ & -> & _). eauto. }
  destruct (in_turn_idle hrs c idles V Hhrs Hfin Hidles) as (Imap & Iord & Iout).
  exists (hist.*1 ++ idles)%list. rewrite in_turn_app. cbn [fst snd].
  rewrite Hmap. split_and!.
  - apply NoDup_Permutation.
    + apply NoDup_app. split_and!; [done| |].
      * intros i Hi Hi'. apply list_elem_of_fmap in Hi as ([i' b] & -> & Hib).
        destruct (Hrel _ _ Hib) as [k Htag].
        apply list_elem_of_filter in Hi' as [Hi' _]. unfold idle in Hi'.
        simpl in Hi'. by rewrite Htag in Hi'.
      * apply NoDup_filter, NoDup_seq.
    + apply NoDup_seq.
    + intros i. rewrite elem_of_app, elem_of_seq. split.
      * intros [Hi|Hi].
        -- apply list_elem_of_fmap in Hi as ([i' b] & -> & Hib).
           destruct (Hrel _ _ Hib) as [k Htag]. simpl.
           apply lookup_lt_Some in Htag. lia.
        -- apply list_elem_of_filter in Hi as [_ Hi].
           by apply elem_of_seq in Hi.
      * intros Hi.
        destruct (lookup_lt_is_Some_2 tags i ltac:(lia)) as [[md k] Htag].
        destruct (Hthread _ _ _ Htag)
          as (t & Hit & _ & [-> | ->] & hr & Hhr & Hs).
        -- right. apply list_elem_of_filter. split.
           ++ unfold idle. by rewrite Htag.
           ++ by apply elem_of_seq.
        -- left. destruct Hs as (b & Hib & _).
           apply list_elem_of_fmap. by exists (i, b).
  - by rewrite Imap.
  - rewrite fmap_app, Iord, Hout. f_equal.
    rewrite <- list_fmap_compose. by apply list_fmap_ext.
  - apply Forall_app. split; [|done]. rewrite Hout.
    apply Forall_fmap, Forall_forall. intros [i b] Hib.
    destruct (Hhist _ _ Hib) as (hr & t & Hhr & Hi & Hs).
    exists t. simpl. rewrite Hhr. by split.
Qed.

End Serial.

(** * Further properties of a request served alone *)

Section Everyday.
Context `{Platform}.

Ltac listed :=
  cbn [StatusCode];
  repeat first [apply list_elem_of_here | apply list_elem_of_further].

Lemma str_from_short (n : nat) (s : string) :
  (String.length s < n)%nat → Go.str_from n s = None.
Proof.
  revert s. induction n as [|n IH]; intros [|c s] Hlen; simpl in *;
    [lia|lia|done|]. apply IH. lia.
Qed.

Lemma str_from_long (n : nat) (s : string) :
  (n ≤ String.length s)%nat → ∃ id, Go.str_from n s = Some id.
Proof.
  revert s. induction n as [|n IH]; intros [|c s] Hlen; simpl in *;
    eauto; [lia|]. apply IH. lia.
Qed.

Lemma unauthorized_route (pat : string) (h : HandlerFunc) :
  (pat, h) ∈ routes → ∃ next, h = authenticate next.
Proof.
  unfold routes. intros Hin.
  apply elem_of_cons in Hin as [Heq|Hin]; [injection Heq as _ ->; eauto|].
  apply list_elem_of_singleton in Hin. injection Hin as _ ->; eauto.
Qed.

Lemma serve_unauthorized (next : HandlerFunc) (r : Request) (σ : Shared) :
  ¬ authorized r →
  serve (authenticate next) r σ
  = Responded (mkResponse StatusUnauthorized ("Unauthorized" ++ newline)) σ.
Proof. intros Hk. apply serve_Error; [by apply authenticate_reject|done]. Qed.

Lemma handleBooks_other (r : Request) (σ : Shared) :
  Method r ≠ "GET" → Method r ≠ "POST" →
  serve handleBooks r σ
  = Responded (mkResponse StatusMethodNotAllowed EmptyString) σ.
Proof.
  intros Hg Hp. unfold serve, handleBooks.
  destruct (decide (Method r = "GET")); [done|].
  destruct (decide (Method r = "POST")); [done|]. reflexivity.
Qed.

Lemma handleBook_at (r : Request) (id : string) :
  Go.str_from (String.length "/book/") (Path r) = Some id →
  handleBook r = handleBook (mkRequest (Method r) ("/book/" ++ id) (Hdr r) (Body r)).
Proof.
  intros Hid. unfold handleBook. cbn [Path Method Body].
  by rewrite Hid, str_from_prefix.
Qed.

Lemma handleBook_other (r : Request) (id : string) (σ : Shared) :
  Method r ≠ "GET" → Method r ≠ "PUT" → Method r ≠ "DELETE" →
  Go.str_from (String.length "/book/") (Path r) = Some id →
  serve handleBook r σ
  = Responded (mkResponse StatusMethodNotAllowed EmptyString) σ.
Proof.
  intros Hg Hp Hd Hid. unfold serve, handleBook. rewrite Hid.
  destruct (decide (Method r = "GET")); [done|].
  destruct (decide (Method r = "PUT")); [done|].
  destruct (decide (Method r = "DELETE")); [done|]. reflexivity.
Qed.

(** X1.  An authorized request with a method the route does not handle is
    answered 405 with an empty body, in every shared state (the mutex is not
    even taken); methods are compared as sent, so a GET in lower case is
    such a method. *)
Theorem other_methods_not_allowed (r : Request) (σ : Shared) :
  authorized r →
  (Method r ≠ "GET" → Method r ≠ "POST" →
   serve (authenticate handleBooks) r σ
   = Responded (mkResponse StatusMethodNotAllowed EmptyString) σ)
  ∧ (Method r ≠ "GET" → Method r ≠ "PUT" → Method r ≠ "DELETE" →
     (String.length "/book/" ≤ String.length (Path r))%nat →
     serve (authenticate handleBook) r σ
     = Responded (mkResponse StatusMethodNotAllowed EmptyString) σ).
Proof.
  intros Hr. split.
  - intros Hg Hp. rewrite serve_authorized by done. by apply handleBooks_other.
  - intros Hg Hp Hd Hlen. rewrite serve_authorized by done.
    destruct (str_from_long _ _ Hlen) as [id Hid].
    by apply (handleBook_other r id).
Qed.

(** X2.  PUT /book/{id} with a body that fails to decode answers 400 with
    the text of the decoding error (and a line feed) and leaves the map as
    it was: nothing is stored under id. *)
Theorem put_malformed_is_400
    (r : Request) (id err : string) (m : gmap string Book) :
  authorized r → Method r = "PUT" → Path r = "/book/" ++ id →
  json_Decode (Body r) = inr err →
  serve (authenticate handleBook) r (at_rest m)
  = Responded (mkResponse StatusBadRequest (err ++ newline)) (at_rest m).
Proof.
  intros Hr Hm Hp Hd. rewrite serve_authorized by done.
  by apply (handleBook_PUT_malformed r id).
Qed.

(** X3.  [handleBook] slices the path at the length of /book/ before it
    looks at anything else: on an authorized request whose path is shorter
    the handler panics, whatever the method, and the shared state is not
    touched. *)
Theorem short_path_panics (r : Request) (σ : Shared) :
  authorized r →
  (String.length (Path r) < String.length "/book/")%nat →
  serve (authenticate handleBook) r σ = Aborted "slice bounds out of range" σ.
Proof.
  intros Hr Hlen. rewrite serve_authorized by done.
  unfold serve, handleBook. by rewrite (str_from_short _ _ Hlen).
Qed.

(** X4.  Every request on /books, served from a map at rest, is answered:
    the handler never blocks, panics or brings the process down, it leaves
    the mutex free, the status is one of 200, 201, 400, 401 and 405, and it
    is 401 exactly when the request does not carry the key. *)
Theorem books_route_always_answers (r : Request) (m : gmap string Book) :
  ∃ (resp : Response) (m' : gmap string Book),
    serve (authenticate handleBooks) r (at_rest m) = Responded resp (at_rest m')
    ∧ StatusCode resp ∈ [StatusOK; StatusCreated; StatusBadRequest;
                         StatusUnauthorized; StatusMethodNotAllowed]
    ∧ (StatusCode resp = StatusUnauthorized ↔ ¬ authorized r).
Proof.
  destruct (decide (authorized r)) as [Hr|Hr].
  2:{ eexists _, _. split; [by apply serve_unauthorized|].
      split; [listed|done]. }
  assert (Hno : ∀ code : Z, code ≠ StatusUnauthorized →
            (code = StatusUnauthorized ↔ ¬ authorized r))
    by (intros code Hc; split; [done|by intros []]).
  rewrite serve_authorized by done.
  destruct (decide (Method r = "GET")) as [Hg|Hg].
  { eexists _, _. split; [by apply handleBooks_GET|].
    split; [listed|by apply Hno]. }
  destruct (decide (Method r = "POST")) as [Hp|Hp].
  { destruct (json_Decode (Body r)) as [book|err] eqn:Hd.
    - eexists _, _. split; [by apply handleBooks_POST|].
      split; [listed|by apply Hno].
    - eexists _, _. split; [by apply handleBooks_POST_malformed|].
      split; [listed|by apply Hno]. }
  eexists _, _. split; [by apply handleBooks_other|].
  split; [listed|by apply Hno].
Qed.

(** X5.  Every request on /book/ whose path is at least as long as the
    prefix, served from a map at rest, is answered, with the mutex free
    afterwards; the status is one of 200, 204, 400, 401, 404 and 405, and it
    is 401 exactly when the request does not carry the key. *)
Theorem book_route_always_answers (r : Request) (m : gmap string Book) :
  (String.length "/book/" ≤ String.length (Path r))%nat →
  ∃ (resp : Response) (m' : gmap string Book),
    serve (authenticate handleBook) r (at_rest m) = Responded resp (at_rest m')
    ∧ StatusCode resp ∈ [StatusOK; StatusNoContent; StatusBadRequest;
                         StatusUnauthorized; StatusNotFound;
                         StatusMethodNotAllowed]
    ∧ (StatusCode resp = StatusUnauthorized ↔ ¬ authorized r).
Proof.
  intros Hlen.
  destruct (decide (authorized r)) as [Hr|Hr].
  2:{ eexists _, _. split; [by apply serve_unauthorized|].
      split; [listed|done]. }
  assert (Hno : ∀ code : Z, code ≠ StatusUnauthorized →
            (code = StatusUnauthorized ↔ ¬ authorized r))
    by (intros code Hc; split; [done|by intros []]).
  rewrite serve_authorized by done.
  destruct (str_from_long _ _ Hlen) as [id Hid].
  unfold serve at 1. rewrite (handleBook_at r id Hid).
  fold (serve handleBook (mkRequest (Method r) ("/book/" ++ id) (Hdr r) (Body r))
          (at_rest m)).
  set (r' := mkRequest (Method r) ("/book/" ++ id) (Hdr r) (Body r)).
  destruct (decide (Method r = "GET")) as [Hg|Hg].
  { rewrite (handleBook_GET r' id) by done.
    destruct (m !! id); eexists _, _; (split; [reflexivity|]);
      (split; [listed|by apply Hno]). }
  destruct (decide (Method r = "PUT")) as [Hp|Hp].
  { destruct (json_Decode (Body r)) as [book|err] eqn:Hd.
    - eexists _, _. split; [by apply (handleBook_PUT r' id)|].
      split; [listed|by apply Hno].
    - eexists _, _. split; [by apply (handleBook_PUT_malformed r' id)|].
      split; [listed|by apply Hno]. }
  destruct (decide (Method r = "DELETE")) as [Hd|Hd].
  { eexists _, _. split; [by apply (handleBook_DELETE r' id)|].
    split; [listed|by apply Hno]. }
  eexists _, _. split; [by apply (handleBook_other r' id)|].
  split; [listed|by apply Hno].
Qed.

(** X6.  Only an authorized POST on /books or PUT on /book/ with a body
    that decodes, and an authorized DELETE on /book/, can change the map:
    every other request on either route (any GET, any request without the
    key, a body that does not decode, any other method, a path too short)
    leaves the map and the mutex exactly as they were. *)
Theorem only_writes_change_the_map
    (pat : string) (h : HandlerFunc) (r : Request) (m : gmap string Book) :
  (pat, h) ∈ routes →
  ¬ (authorized r ∧ mutating pat r) →
  (∃ resp, serve h r (at_rest m) = Responded resp (at_rest m))
  ∨ (∃ msg, serve h r (at_rest m) = Aborted msg (at_rest m)).
Proof.
  intros Hroute Hquiet.
  destruct (decide (authorized r)) as [Hr|Hr].
  2:{ left. eexists.
      destruct (unauthorized_route _ _ Hroute) as [next ->].
      by apply serve_unauthorized. }
  assert (Hnot : ¬ mutating pat r) by (intros Hmut; by apply Hquiet).
  unfold mutating in Hnot. unfold routes in Hroute.
  apply elem_of_cons in Hroute as [Heq|Hroute].
  - injection Heq as -> ->. rewrite serve_authorized by done.
    destruct (decide (Method r = "GET")) as [Hg|Hg];
      [left; eexists; by apply handleBooks_GET|].
    destruct (decide (Method r = "POST")) as [Hp|Hp];
      [|left; eexists; by apply handleBooks_other].
    destruct (json_Decode (Body r)) as [book|err] eqn:Hd;
      [|left; eexists; by apply handleBooks_POST_malformed].
    destruct Hnot. left. eauto.
  - apply list_elem_of_singleton in Hroute. injection Hroute as -> ->.
    rewrite serve_authorized by done.
    destruct (Go.str_from (String.length "/book/") (Path r)) as [id|] eqn:Hid.
    2:{ right. eexists. unfold serve, handleBook. by rewrite Hid. }
    unfold serve at 1 2. rewrite (handleBook_at r id Hid).
    fold (serve handleBook
            (mkRequest (Method r) ("/book/" ++ id) (Hdr r) (Body r)) (at_rest m)).
    set (r' := mkRequest (Method r) ("/book/" ++ id) (Hdr r) (Body r)).
    destruct (decide (Method r = "GET")) as [Hg|Hg].
    { left. rewrite (handleBook_GET r' id) by done.
      destruct (m !! id); eexists; reflexivity. }
    destruct (decide (Method r = "PUT")) as [Hp|Hp].
    { destruct (json_Decode (Body r)) as [book|err] eqn:Hd.
      - destruct Hnot. right. split; [done|]. left. eauto.
      - left. eexists. by apply (handleBook_PUT_malformed r' id). }
    destruct (decide (Method r = "DELETE")) as [Hd|Hd].
    { destruct Hnot. right. split; [done|]. by right. }
    left. eexists. by apply (handleBook_other r' id).
Qed.

Lemma stores_serve (h : HandlerFunc) (r : Request) (k : string) (v : Book)
    (m : gmap string Book) :
  authorized r → stores h r k v →
  ∃ resp, serve (authenticate h) r (at_rest m)
          = Responded resp (at_rest (<[k:=v]> m)).
Proof.
  intros Hr Hs. rewrite serve_authorized by done.
  destruct Hs as [r book Hm Hd|r id book Hm Hp Hd]; eexists.
  - by apply handleBooks_POST.
  - by apply handleBook_PUT.
Qed.

(** X7.  Of two requests that store a record under the same key (two POSTs
    carrying the same identifier, two PUTs on the same path, or one of
    each), served one after the other, the later one wins: the map ends as
    if only the second had been served, and a GET of the key answers with
    the second record. *)
Theorem later_write_wins
    (h1 h2 : HandlerFunc) (r1 r2 g : Request) (k : string) (v1 v2 : Book)
    (m : gmap string Book) :
  authorized r1 → stores h1 r1 k v1 →
  authorized r2 → stores h2 r2 k v2 →
  authorized g → Method g = "GET" → Path g = "/book/" ++ k →
  ∃ (resp1 resp2 : Response) (m1 : gmap string Book),
    serve (authenticate h1) r1 (at_rest m) = Responded resp1 (at_rest m1)
    ∧ serve (authenticate h2) r2 (at_rest m1)
      = Responded resp2 (at_rest (<[k:=v2]> m))
    ∧ serve (authenticate h2) r2 (at_rest m)
      = Responded resp2 (at_rest (<[k:=v2]> m))
    ∧ serve (authenticate handleBook) g (at_rest (<[k:=v2]> m))
      = Responded (mkResponse StatusOK (json.Marshal_Book v2 ++ newline))
                  (at_rest (<[k:=v2]> m)).
Proof.
  intros Hr1 Hs1 Hr2 Hs2 Hg Hgm Hgp.
  destruct (stores_serve h1 r1 k v1 m Hr1 Hs1) as [resp1 H1].
  destruct (stores_serve h2 r2 k v2 (<[k:=v1]> m) Hr2 Hs2) as [resp2 H2].
  destruct (stores_serve h2 r2 k v2 m Hr2 Hs2) as [resp2' H2'].
  assert (resp2' = resp2) as ->.
  { rewrite serve_authorized in H2, H2' by done.
    destruct Hs2 as [r2 book Hm Hd|r2 id book Hm Hp Hd].
    - rewrite (handleBooks_POST r2 book) in H2, H2' by done. congruence.
    - rewrite (handleBook_PUT r2 id book) in H2, H2' by done. congruence. }
  rewrite insert_insert_eq in H2.
  exists resp1, resp2, (<[k:=v1]> m). split_and!; try done.
  rewrite serve_authorized by done.
  rewrite (handleBook_GET g k) by done. by rewrite lookup_insert_eq.
Qed.

(** X8.  Two requests that store records under different keys can be
    served in either order: the map ends the same. *)
Theorem writes_to_distinct_keys_commute
    (h1 h2 : HandlerFunc) (r1 r2 : Request) (k1 k2 : string) (v1 v2 : Book)
    (m : gmap string Book) :
  authorized r1 → stores h1 r1 k1 v1 →
  authorized r2 → stores h2 r2 k2 v2 →
  k1 ≠ k2 →
  ∃ (resp1 resp2 resp1' resp2' : Response) (m1 m2 m' : gmap string Book),
    serve (authenticate h1) r1 (at_rest m) = Responded resp1 (at_rest m1)
    ∧ serve (authenticate h2) r2 (at_rest m1) = Responded resp2 (at_rest m')
    ∧ serve (authenticate h2) r2 (at_rest m) = Responded resp2' (at_rest m2)
    ∧ serve (authenticate h1) r1 (at_rest m2) = Responded resp1' (at_rest m')
    ∧ m' !! k1 = Some v1 ∧ m' !! k2 = Some v2.
Proof.
  intros Hr1 Hs1 Hr2 Hs2 Hne.
  destruct (stores_serve h1 r1 k1 v1 m Hr1 Hs1) as [resp1 H1].
  destruct (stores_serve h2 r2 k2 v2 (<[k1:=v1]> m) Hr2 Hs2) as [resp2 H2].
  destruct (stores_serve h2 r2 k2 v2 m Hr2 Hs2) as [resp2' H2'].
  destruct (stores_serve h1 r1 k1 v1 (<[k2:=v2]> m) Hr1 Hs1) as [resp1' H1'].
  rewrite (insert_insert_ne m k1 k2 v1 v2 Hne) in H1'.
  exists resp1, resp2, resp1', resp2'.
  exists (<[k1:=v1]> m), (<[k2:=v2]> m), (<[k2:=v2]> (<[k1:=v1]> m)).
  split_and!; try done.
  - rewrite lookup_insert_ne by done. apply lookup_insert_eq.
  - apply lookup_insert_eq.
Qed.

(** X9.  Storing a record and then deleting its key leaves no record under
    the key; when the key was free before, the map is back to what it was. *)
Theorem write_then_delete_restores
    (h : HandlerFunc) (r d : Request) (k : string) (v : Book)
    (m : gmap string Book) :
  authorized r → stores h r k v →
  authorized d → Method d = "DELETE" → Path d = "/book/" ++ k →
  ∃ (resp : Response) (m1 : gmap string Book),
    serve (authenticate h) r (at_rest m) = Responded resp (at_rest m1)
    ∧ serve (authenticate handleBook) d (at_rest m1)
      = Responded (mkResponse StatusNoContent EmptyString)
                  (at_rest (delete k m))
    ∧ (m !! k = None → delete k m = m).
Proof.
  intros Hr Hs Hd Hdm Hdp.
  destruct (stores_serve h r k v m Hr Hs) as [resp H1].
  exists resp, (<[k:=v]> m). split_and!; [done| |apply delete_id].
  rewrite serve_authorized by done.
  rewrite (handleBook_DELETE d k) by done. by rewrite delete_insert_eq.
Qed.

(** X13.  On the map, a PUT on /book/{id} does what a POST of the same
    record does when id is the identifier the record carries: both end
    with the same map; they differ in the answer only (201 with an empty
    body against 200 with the JSON of the record). *)
Theorem put_is_post_on_the_map
    (p u : Request) (book : Book) (m : gmap string Book) :
  authorized p → Method p = "POST" → json_Decode (Body p) = inl book →
  authorized u → Method u = "PUT" → Path u = "/book/" ++ ID book →
  json_Decode (Body u) = inl book →
  ∃ m' : gmap string Book,
    serve (authenticate handleBooks) p (at_rest m)
    = Responded (mkResponse StatusCreated EmptyString) (at_rest m')
    ∧ serve (authenticate handleBook) u (at_rest m)
      = Responded (mkResponse StatusOK (json.Marshal_Book book ++ newline))
                  (at_rest m').
Proof.
  intros Hp Hpm Hpd Hu Hum Hup Hud. exists (<[ID book:=book]> m).
  rewrite !serve_authorized by done. split.
  - by apply handleBooks_POST.
  - by apply handleBook_PUT.
Qed.

(** X10.  [initializeBooks] takes no lock and writes five keys: run in any
    state in which no map write or [range] loop is in progress (whoever
    holds the mutex), it returns with the five seeded books under their
    identifiers, every other key as it was, the mutex and the writer
    untouched; running it again changes nothing. *)
Theorem reseeding_restores_the_seeds (σ : Shared) (w : ResponseWriter) :
  hashWriting σ = false → iterating σ = 0%nat →
  ∃ m' : gmap string Book,
    run initializeBooks σ w = Returned tt (mkShared m' false 0 (mux σ)) w
    ∧ (∀ b, b ∈ seeds → m' !! ID b = Some b)
    ∧ (∀ k, k ∉ ID <$> seeds → m' !! k = books σ !! k)
    ∧ run initializeBooks (mkShared m' false 0 (mux σ)) w
      = Returned tt (mkShared m' false 0 (mux σ)) w.
Proof.
  destruct σ as [bk hw it mx]. cbn [hashWriting iterating mux books].
  intros -> ->.
  set (reseed := λ m : gmap string Book,
         <["5":=mkBook "5" "Moby Dick"]>
           (<["4":=mkBook "4" "The Great Gatsby"]>
              (<["3":=mkBook "3" "To Kill a Mockingbird"]>
                 (<["2":=mkBook "2" "Brave New World"]>
                    (<["1":=mkBook "1" "1984"]> m))))).
  assert (Hrun : ∀ m, run initializeBooks (mkShared m false 0 mx) w
                      = Returned tt (mkShared (reseed m) false 0 mx) w)
    by reflexivity.
  assert (Hseeds : ∀ m b, b ∈ seeds → reseed m !! ID b = Some b).
  { intros m b Hb. unfold seeds in Hb. unfold reseed.
    repeat (apply elem_of_cons in Hb as [->|Hb]);
      [..|by apply elem_of_nil in Hb]; simpl;
      repeat (rewrite lookup_insert_ne by done); apply lookup_insert_eq. }
  assert (Hframe : ∀ m k, k ∉ ID <$> seeds → reseed m !! k = m !! k).
  { intros m k Hk. unfold reseed.
    repeat (rewrite lookup_insert_ne;
            [|intros <-; apply Hk; unfold seeds; csimpl;
              repeat first [apply list_elem_of_here
                           |apply list_elem_of_further]]).
    reflexivity. }
  exists (reseed bk). split_and!; [apply Hrun|apply Hseeds|apply Hframe|].
  rewrite Hrun. do 2 f_equal. apply map_eq. intros k.
  destruct (decide (k ∈ ID <$> seeds)) as [Hin|Hout].
  - apply list_elem_of_fmap in Hin as (b & -> & Hb).
    by rewrite !Hseeds.
  - by rewrite !Hframe.
Qed.

End Everyday.

(** * The statements at work on the reference platform *)

Section Witnesses.
Import Reference Scenario.
#[local] Existing Instance platform.

Ltac evaluated := vm_compute; reflexivity.

Lemma unauthorized_is_rejected_witness :
  Hdr (anonymous "DELETE" "/book/1" EmptyString) !! "X-Api-Key" = None
  ∧ serve book_route (anonymous "DELETE" "/book/1" EmptyString) (at_rest shelf)
    = Responded (mkResponse StatusUnauthorized ("Unauthorized" ++ newline))
                (at_rest shelf).
Proof.
  assert (Hnone : Hdr (anonymous "DELETE" "/book/1" EmptyString) !! "X-Api-Key"
                  = None) by reflexivity.
  assert (Hroute : ("/book/", book_route) ∈ routes).
  { unfold routes. apply list_elem_of_further, list_elem_of_here. }
  split; [exact Hnone|].
  exact (proj1 (unauthorized_is_rejected "/book/" book_route _ (at_rest shelf)
                  Hroute (or_introl Hnone))).
Defined.

Lemma put_stores_under_path_id_witness :
  ID dune ≠ "99"
  ∧ serve book_route (request "PUT" "/book/99" (wire dune)) (at_rest shelf)
    = Responded (mkResponse StatusOK (wire dune ++ newline))
                (at_rest (<["99":=dune]> shelf))
  ∧ serve book_route (request "GET" "/book/99" EmptyString)
          (at_rest (<["99":=dune]> shelf))
    = Responded (mkResponse StatusOK (wire dune ++ newline))
                (at_rest (<["99":=dune]> shelf)).
Proof.
  destruct (put_stores_under_path_id
              (request "PUT" "/book/99" (wire dune))
              (request "GET" "/book/99" EmptyString) "99" dune shelf
              ltac:(evaluated) ltac:(evaluated) ltac:(evaluated)
              ltac:(evaluated) ltac:(evaluated) ltac:(evaluated)
              ltac:(evaluated))
    as (Hput & _ & _ & Hget).
  split; [discriminate|]. split; [exact Hput|exact Hget].
Defined.

Lemma post_stores_under_own_id_witness :
  serve books_route (request "POST" "/books" (wire dune)) (at_rest shelf)
  = Responded (mkResponse StatusCreated EmptyString)
              (at_rest (<["6":=dune]> shelf))
  ∧ serve book_route (request "GET" "/book/6" EmptyString)
          (at_rest (<["6":=dune]> shelf))
    = Responded (mkResponse StatusOK (wire dune ++ newline))
                (at_rest (<["6":=dune]> shelf)).
Proof.
  destruct (post_stores_under_own_id
              (request "POST" "/books" (wire dune))
              (request "GET" "/book/6" EmptyString) dune shelf
              ltac:(evaluated) ltac:(evaluated) ltac:(evaluated)
              ltac:(evaluated) ltac:(evaluated) ltac:(evaluated))
    as (Hpost & _ & Hget).
  split; [exact Hpost|exact Hget].
Defined.

Lemma post_malformed_is_400_witness :
  decode "{" = inr cut_short
  ∧ serve books_route (request "POST" "/books" "{") (at_rest shelf)
    = Responded (mkResponse StatusBadRequest (cut_short ++ newline))
                (at_rest shelf).
Proof.
  split; [reflexivity|].
  exact (post_malformed_is_400 (request "POST" "/books" "{") cut_short shelf
           ltac:(evaluated) ltac:(evaluated) ltac:(evaluated)).
Defined.

Lemma delete_is_idempotent_witness :
  serve book_route (request "DELETE" "/book/1" EmptyString) (at_rest shelf)
  = Responded (mkResponse StatusNoContent EmptyString)
              (at_rest (delete "1" shelf))
  ∧ status_of (serve book_route (request "GET" "/book/1" EmptyString)
                 (at_rest (delete "1" shelf)))
    = Some StatusNotFound
  ∧ serve book_route (request "DELETE" "/book/1" EmptyString)
          (at_rest (delete "1" shelf))
    = Responded (mkResponse StatusNoContent EmptyString)
                (at_rest (delete "1" shelf)).
Proof.
  destruct (delete_is_idempotent
              (request "DELETE" "/book/1" EmptyString)
              (request "GET" "/book/1" EmptyString) "1" shelf
              ltac:(evaluated) ltac:(evaluated) ltac:(evaluated)
              ltac:(evaluated) ltac:(evaluated) ltac:(evaluated))
    as (Hdel & _ & _ & Hget & Hagain).
  split; [exact Hdel|]. split; [exact Hget|exact Hagain].
Defined.

Lemma get_by_id_witness :
  Path (request "GET" "/book/" EmptyString) = "/book/" ++ EmptyString
  ∧ serve book_route (request "GET" "/book/" EmptyString)
          (at_rest (<[EmptyString:=dune]> shelf))
    = Responded (mkResponse StatusOK (wire dune ++ newline))
                (at_rest (<[EmptyString:=dune]> shelf))
  ∧ serve book_route (request "GET" "/book/3" EmptyString) (at_rest shelf)
    = Responded (mkResponse StatusNotFound ("404 page not found" ++ newline))
                (at_rest shelf).
Proof.
  split; [reflexivity|]. split.
  - destruct (get_by_id (request "GET" "/book/" EmptyString)
                EmptyString (<[EmptyString:=dune]> shelf)
                ltac:(evaluated) ltac:(evaluated) ltac:(evaluated))
      as (_ & Hfound & _).
    exact (Hfound dune (lookup_insert_eq shelf EmptyString dune)).
  - destruct (get_by_id (request "GET" "/book/3" EmptyString) "3" shelf
                ltac:(evaluated) ltac:(evaluated) ltac:(evaluated))
      as (_ & _ & Hmissing & _).
    exact (Hmissing ltac:(evaluated)).
Defined.

Lemma startup_seeds_five_books_witness :
  ∃ (m : gmap string Book) (l : list Book),
    startup = Returned tt (at_rest m) fresh
    ∧ size m = 5%nat
    ∧ l ≡ₚ seeds
    ∧ serve books_route (request "GET" "/books" EmptyString) (at_rest m)
      = Responded (mkResponse StatusOK
                     (json.Marshal_slice (Go.mk_slice l) ++ newline))
                  (at_rest m).
Proof.
  destruct (startup_seeds_five_books (request "GET" "/books" EmptyString)
              ltac:(evaluated) ltac:(evaluated))
    as (m & l & Hstart & _ & Hsize & Hperm & Hget).
  exists m, l. split; [exact Hstart|]. split; [exact Hsize|].
  split; [exact Hperm|exact Hget].
Defined.

Lemma list_answers_array_witness :
  serve books_route (request "GET" "/books" EmptyString) (at_rest ∅)
  = Responded (mkResponse StatusOK ("[]" ++ newline)) (at_rest ∅).
Proof.
  destruct (list_answers_array (request "GET" "/books" EmptyString) ∅
              ltac:(evaluated) ltac:(evaluated))
    as (l & _ & _ & _ & Hempty).
  exact (Hempty eq_refl).
Defined.

Lemma writes_touch_one_key_witness :
  ∃ (resp : Response) (m' : gmap string Book),
    serve book_route (request "DELETE" "/book/1" EmptyString) (at_rest shelf)
    = Responded resp (at_rest m')
    ∧ m' !! "2" = shelf !! "2".
Proof.
  assert (Ht : touches handleBook (request "DELETE" "/book/1" EmptyString) "1").
  { apply touches_delete; reflexivity. }
  exact (writes_touch_one_key handleBook
           (request "DELETE" "/book/1" EmptyString) "1" "2" shelf
           ltac:(evaluated) Ht ltac:(discriminate)).
Defined.

Lemma concurrent_posts_all_land_witness :
  ∃ c, schedule one_by_one two_posts_start = Some c
     ∧ finished c
     ∧ books (shared c) !! "6" = Some dune
     ∧ books (shared c) !! "7" = Some emma.
Proof.
  destruct (schedule one_by_one two_posts_start)
    as [c|] eqn:Hs; [|vm_compute in Hs; discriminate].
  exists c. split; [reflexivity|].
  assert (Hrs : Forall2 (λ r b, authorized r ∧ Method r = "POST"
                           ∧ json_Decode (Body r) = inl b)
                  two_posts [dune; emma]).
  { repeat constructor; evaluated. }
  assert (Hnd : NoDup (ID <$> [dune; emma])) by compute_done.
  destruct (concurrent_posts_all_land two_posts [dune; emma] ∅ 10 c
              Hrs Hnd (schedule_steps _ _ _ Hs))
    as (_ & _ & _ & _ & Hfin).
  assert (Hdone : finished c).
  { vm_compute in Hs. injection Hs as <-. repeat constructor. }
  split; [exact Hdone|].
  destruct (Hfin Hdone) as (_ & _ & _ & m & Hm & Hin & _).
  rewrite Hm. simpl.
  split; [apply (Hin dune)|apply (Hin emma)].
  - apply list_elem_of_here.
  - apply list_elem_of_further, list_elem_of_here.
Defined.

End Witnesses.

(** * The further statements at work on the reference platform *)

Section MoreWitnesses.
Import Reference Scenario Cases.
#[local] Existing Instance platform.

Ltac computed := vm_compute; reflexivity.

Lemma other_methods_not_allowed_witness :
  serve books_route (request "get" "/books" EmptyString) (at_rest shelf)
  = Responded (mkResponse StatusMethodNotAllowed EmptyString) (at_rest shelf)
  ∧ serve book_route (request "PATCH" "/book/1" EmptyString) (write_locked shelf)
    = Responded (mkResponse StatusMethodNotAllowed EmptyString)
                (write_locked shelf).
Proof.
  split.
  - exact (proj1 (other_methods_not_allowed
                    (request "get" "/books" EmptyString) (at_rest shelf)
                    ltac:(computed))
                 ltac:(discriminate) ltac:(discriminate)).
  - exact (proj2 (other_methods_not_allowed
                    (request "PATCH" "/book/1" EmptyString) (write_locked shelf)
                    ltac:(computed))
                 ltac:(discriminate) ltac:(discriminate) ltac:(discriminate)
                 ltac:(vm_compute; lia)).
Defined.

Lemma put_malformed_is_400_witness :
  serve book_route (request "PUT" "/book/1" "{") (at_rest shelf)
  = Responded (mkResponse StatusBadRequest (cut_short ++ newline))
              (at_rest shelf).
Proof.
  exact (put_malformed_is_400 (request "PUT" "/book/1" "{") "1" cut_short shelf
           ltac:(computed) ltac:(computed) ltac:(computed) ltac:(computed)).
Defined.

Lemma short_path_panics_witness :
  serve book_route (request "GET" "/book" EmptyString) (at_rest shelf)
  = Aborted "slice bounds out of range" (at_rest shelf).
Proof.
  exact (short_path_panics (request "GET" "/book" EmptyString) (at_rest shelf)
           ltac:(computed) ltac:(vm_compute; lia)).
Defined.

Lemma book_route_always_answers_witness :
  ∃ (resp : Response) (m' : gmap string Book),
    serve book_route (request "OPTIONS" "/book/../1" "{") (at_rest shelf)
    = Responded resp (at_rest m')
    ∧ StatusCode resp ≠ StatusUnauthorized.
Proof.
  destruct (book_route_always_answers
              (request "OPTIONS" "/book/../1" "{") shelf ltac:(vm_compute; lia))
    as (resp & m' & Hs & _ & Hgate).
  exists resp, m'. split; [exact Hs|].
  intros Hcode. apply (proj1 Hgate Hcode). computed.
Defined.

Lemma only_writes_change_the_map_witness :
  ∃ resp, serve book_route (request "PUT" "/book/1" "{") (at_rest shelf)
          = Responded resp (at_rest shelf).
Proof.
  assert (Hroute : ("/book/", book_route) ∈ routes).
  { unfold routes. apply list_elem_of_further, list_elem_of_here. }
  assert (Hquiet : ¬ (authorized (request "PUT" "/book/1" "{")
                      ∧ mutating "/book/" (request "PUT" "/book/1" "{"))).
  { intros [_ [(Hp & _)|(_ & [(_ & b & Hb)|Hd])]]; [discriminate| |discriminate].
    vm_compute in Hb. discriminate. }
  destruct (only_writes_change_the_map "/book/" book_route
              (request "PUT" "/book/1" "{") shelf Hroute Hquiet)
    as [Hresp|[msg Habort]]; [exact Hresp|].
  vm_compute in Habort. discriminate.
Defined.

Lemma later_write_wins_witness :
  ∃ (resp1 resp2 : Response) (m1 : gmap string Book),
    serve books_route (request "POST" "/books" (wire dune)) (at_rest shelf)
    = Responded resp1 (at_rest m1)
    ∧ serve book_route (request "PUT" "/book/6" (wire messiah)) (at_rest m1)
      = Responded resp2 (at_rest (<["6":=messiah]> shelf))
    ∧ serve book_route (request "GET" "/book/6" EmptyString)
            (at_rest (<["6":=messiah]> shelf))
      = Responded (mkResponse StatusOK (wire messiah ++ newline))
                  (at_rest (<["6":=messiah]> shelf)).
Proof.
  assert (H1 : stores handleBooks (request "POST" "/books" (wire dune)) "6" dune).
  { apply (stores_post (request "POST" "/books" (wire dune)) dune); computed. }
  assert (H2 : stores handleBook (request "PUT" "/book/6" (wire messiah))
                 "6" messiah).
  { apply stores_put; computed. }
  destruct (later_write_wins handleBooks handleBook
              (request "POST" "/books" (wire dune))
              (request "PUT" "/book/6" (wire messiah))
              (request "GET" "/book/6" EmptyString) "6" dune messiah shelf
              ltac:(computed) H1 ltac:(computed) H2
              ltac:(computed) ltac:(computed) ltac:(computed))
    as (resp1 & resp2 & m1 & Hfirst & Hsecond & _ & Hget).
  exists resp1, resp2, m1. split; [exact Hfirst|]. split; [exact Hsecond|exact Hget].
Defined.

Lemma writes_to_distinct_keys_commute_witness :
  ∃ (resp1 resp2 resp1' resp2' : Response) (m1 m2 m' : gmap string Book),
    serve books_route (request "POST" "/books" (wire dune)) (at_rest shelf)
    = Responded resp1 (at_rest m1)
    ∧ serve books_route (request "POST" "/books" (wire emma)) (at_rest m1)
      = Responded resp2 (at_rest m')
    ∧ serve books_route (request "POST" "/books" (wire emma)) (at_rest shelf)
      = Responded resp2' (at_rest m2)
    ∧ serve books_route (request "POST" "/books" (wire dune)) (at_rest m2)
      = Responded resp1' (at_rest m').
Proof.
  assert (H1 : stores handleBooks (request "POST" "/books" (wire dune)) "6" dune).
  { apply (stores_post (request "POST" "/books" (wire dune)) dune); computed. }
  assert (H2 : stores handleBooks (request "POST" "/books" (wire emma)) "7" emma).
  { apply (stores_post (request "POST" "/books" (wire emma)) emma); computed. }
  destruct (writes_to_distinct_keys_commute handleBooks handleBooks
              (request "POST" "/books" (wire dune))
              (request "POST" "/books" (wire emma)) "6" "7" dune emma shelf
              ltac:(computed) H1 ltac:(computed) H2 ltac:(discriminate))
    as (resp1 & resp2 & resp1' & resp2' & m1 & m2 & m' & Ha & Hb & Hc & Hd & _).
  exists resp1, resp2, resp1', resp2', m1, m2, m'.
  split; [exact Ha|]. split; [exact Hb|]. split; [exact Hc|exact Hd].
Defined.

Lemma write_then_delete_restores_witness :
  ∃ (resp : Response) (m1 : gmap string Book),
    serve books_route (request "POST" "/books" (wire dune)) (at_rest shelf)
    = Responded resp (at_rest m1)
    ∧ serve book_route (request "DELETE" "/book/6" EmptyString) (at_rest m1)
      = Responded (mkResponse StatusNoContent EmptyString) (at_rest shelf).
Proof.
  assert (H1 : stores handleBooks (request "POST" "/books" (wire dune)) "6" dune).
  { apply (stores_post (request "POST" "/books" (wire dune)) dune); computed. }
  destruct (write_then_delete_restores handleBooks
              (request "POST" "/books" (wire dune))
              (request "DELETE" "/book/6" EmptyString) "6" dune shelf
              ltac:(computed) H1 ltac:(computed) ltac:(computed) ltac:(computed))
    as (resp & m1 & Hpost & Hdel & Hback).
  exists resp, m1. split; [exact Hpost|].
  rewrite (Hback ltac:(computed)) in Hdel. exact Hdel.
Defined.

Lemma put_is_post_on_the_map_witness :
  ∃ m' : gmap string Book,
    serve books_route (request "POST" "/books" (wire dune)) (at_rest shelf)
    = Responded (mkResponse StatusCreated EmptyString) (at_rest m')
    ∧ serve book_route (request "PUT" "/book/6" (wire dune)) (at_rest shelf)
      = Responded (mkResponse StatusOK (wire dune ++ newline)) (at_rest m').
Proof.
  exact (put_is_post_on_the_map
           (request "POST" "/books" (wire dune))
           (request "PUT" "/book/6" (wire dune)) dune shelf
           ltac:(computed) ltac:(computed) ltac:(computed)
           ltac:(computed) ltac:(computed) ltac:(computed) ltac:(computed)).
Defined.

Lemma reseeding_restores_the_seeds_witness :
  ∃ m' : gmap string Book,
    run initializeBooks (write_locked (<["6":=dune]> ∅)) fresh
    = Returned tt (write_locked m') fresh
    ∧ m' !! "1" = Some (mkBook "1" "1984")
    ∧ m' !! "6" = Some dune.
Proof.
  destruct (reseeding_restores_the_seeds (write_locked (<["6":=dune]> ∅)) fresh
              eq_refl eq_refl)
    as (m' & Hrun & Hseeds & Hframe & _).
  exists m'. split; [exact Hrun|]. split.
  - apply (Hseeds (mkBook "1" "1984")). apply list_elem_of_here.
  - rewrite (Hframe "6"); [reflexivity|].
    intros Hin. vm_compute in Hin.
    repeat (apply elem_of_cons in Hin as [Hin|Hin]; [discriminate|]).
    by apply elem_of_nil in Hin.
Defined.

Lemma routes_keep_discipline_witness :
  disciplined 6 Idle (book_route (anonymous "DELETE" "/book/1" EmptyString))
  ∧ disciplined 6 Idle (books_route (request "GET" "/books" EmptyString)).
Proof.
  split.
  - apply (routes_keep_discipline "/book/").
    unfold routes. apply list_elem_of_further, list_elem_of_here.
  - apply (routes_keep_discipline "/books").
    unfold routes. apply list_elem_of_here.
Defined.

Lemma any_requests_served_together_witness :
  ∃ c, schedule reader_first mixed_start = Some c
     ∧ settled c ∧ ¬ crashes c
     ∧ ∃ m, shared c = at_rest m.
Proof.
  destruct (schedule reader_first mixed_start)
    as [c|] eqn:Hs; [|vm_compute in Hs; discriminate].
  exists c. split; [reflexivity|].
  assert (Hhrs : Forall (λ hr, ∃ pat, (pat, hr.1) ∈ routes) mixed).
  { unfold mixed, routes. repeat constructor.
    - exists "/books". apply list_elem_of_here.
    - exists "/book/". apply list_elem_of_further, list_elem_of_here.
    - exists "/book/". apply list_elem_of_further, list_elem_of_here. }
  destruct (any_requests_served_together mixed shelf 16 c Hhrs
              (schedule_steps _ _ _ Hs))
    as (Hsafe & _ & _ & _ & Hrest).
  assert (Hdone : settled c).
  { vm_compute in Hs. injection Hs as <-. repeat constructor. }
  split; [exact Hdone|]. split; [exact Hsafe|exact (Hrest Hdone)].
Defined.

Lemma concurrent_runs_are_serial_witness :
  ∃ (c : Pool) (order : list nat),
    schedule reader_first mixed_start = Some c
    ∧ order ≡ₚ [0; 1; 2]%nat
    ∧ (in_turn mixed order shelf).2 = books (shared c)
    ∧ Forall (shown c) (in_turn mixed order shelf).1.
Proof.
  destruct (schedule reader_first mixed_start)
    as [c|] eqn:Hs; [|vm_compute in Hs; discriminate].
  assert (Hhrs : Forall (λ hr, ∃ pat, (pat, hr.1) ∈ routes) mixed).
  { unfold mixed, routes. repeat constructor.
    - exists "/books". apply list_elem_of_here.
    - exists "/book/". apply list_elem_of_further, list_elem_of_here.
    - exists "/book/". apply list_elem_of_further, list_elem_of_here. }
  assert (Hdone : settled c).
  { vm_compute in Hs. injection Hs as <-. repeat constructor. }
  destruct (concurrent_runs_are_serial mixed shelf 16 c Hhrs
              (schedule_steps _ _ _ Hs) Hdone)
    as (order & Hperm & Hmap & _ & Hshown).
  exists c, order. split; [reflexivity|]. split; [exact Hperm|].
  split; [exact Hmap|exact Hshown].
Defined.

End MoreWitnesses.
